(** * The schedule resolver of the NFL team tracker

    A shallow embedding of [fetchTeamSchedule] and of the part of the
    modal that shows its result, as written in the page component
    (the typed revision with the [Event]/[Competitor] interfaces and the
    earlier revision [src/app/page.tsx], which inlines the lookups).

    - [JS] holds the pieces of the host language the component relies on:
      numbers that may be NaN, the [||] operator on optional strings,
      [Date] parsing and [Array.prototype.sort].
    - [Raw] is the JSON the schedule endpoint answers with, [Game] and
      [TeamSchedule] are the component's own interfaces.
    - [Resolver] is the body of [fetchTeamSchedule], first the pure
      classification and ordering, then the [try]/[catch]/[finally] around
      the network call, as a transformer of the component's state.
    - [View] is what the modal prints for a game.
    - [Api], [Directory] and [fetchTeams] are the team directory loaded
      when the component mounts; [Page] is what the component returns.
    - [Action] and [run] split a request at its [await], to follow
      clicks and answers that arrive in any order.
    - [V8] is the sort of one engine on short arrays; it agrees with
      the sort of [JS] whenever the dates compared parse
      ([V8_sort_agrees]) and differs from it beside undated games. *)

From Stdlib Require Import List String Ascii ZArith Lia Bool DecimalString.
From Stdlib Require Import Sorting.Sorted Sorting.Permutation.
Import ListNotations.

Local Open Scope string_scope.
Local Open Scope list_scope.
Local Open Scope Z_scope.

(* ================================================================== *)
(** ** The host language *)

Module JS.

(** A time value or a difference of two: an integer number of
    milliseconds, or NaN ([None]).  Time values are bounded by 8.64e15
    in absolute value, so a difference of two is rounded by at most one
    unit in the last place and keeps its sign; only the sign is ever
    inspected. *)
Definition Number := option Z.

Definition NaN : Number := None.

(** [a - b] *)
Definition sub (a b : Number) : Number :=
  match a, b with
  | Some x, Some y => Some (x - y)
  | _, _ => NaN
  end.

(** [a > b]: false as soon as one side is NaN. *)
Definition gt (a b : Number) : bool :=
  match a, b with
  | Some x, Some y => x >? y
  | _, _ => false
  end.

(** [a < b] *)
Definition lt (a b : Number) : bool := gt b a.

(** [v || d] for an optional string: [undefined] and the empty string
    are falsy. *)
Definition or_string (v : option string) (d : string) : string :=
  match v with
  | Some s => if String.eqb s "" then d else s
  | None => d
  end.

(** [v || false] for an optional boolean. *)
Definition or_false (v : option bool) : bool :=
  match v with
  | Some b => b
  | None => false
  end.

(** [v || []] for an optional array. *)
Definition or_empty {A} (v : option (list A)) : list A :=
  match v with
  | Some l => l
  | None => []
  end.

(** [a.slice(0, n)] *)
Definition slice0 {A} (n : nat) (a : list A) : list A := firstn n a.

(** The decimal text of a non-negative integer, as a template literal
    prints it. *)
Definition toString (n : nat) : string :=
  NilEmpty.string_of_uint (Nat.to_uint n).

(* ---------------------------------------------------------------- *)
(** *** [Array.prototype.sort] *)

Section Sort.
Context {A : Type}.
Variable comparefn : A -> A -> Number.

(** The abstract operation SortCompare on defined elements: a NaN
    answer of the comparison function counts as +0. *)
Definition SortCompare (x y : A) : Z :=
  match comparefn x y with
  | Some v => v
  | None => 0
  end.

(** The inner loop of insertion sort.  [rp] is the already ordered
    prefix read from its last element down; [element] moves left
    past every [tmp] with [comparefn(tmp, element) > 0] and stops at
    the first one that does not compare greater. *)
Fixpoint shift (element : A) (rp : list A) : list A :=
  match rp with
  | [] => [element]
  | tmp :: rest =>
      if SortCompare tmp element >? 0
      then tmp :: shift element rest
      else element :: rp
  end.

(** [a.sort(comparefn)] on an array without holes.  The language fixes
    the result only for a consistent comparison function: then it is the
    one stable ordered arrangement, whatever the algorithm (see
    [sort_unique] below).  Otherwise the order is left to the engine;
    the model takes insertion sort, from left to right. *)
Definition sort (a : list A) : list A :=
  rev (fold_left (fun rp element => shift element rp) a []).

End Sort.

(* ---------------------------------------------------------------- *)
(** *** [Date] *)

Definition msPerDay : Z := 86400000.

Definition DayFromYear (y : Z) : Z :=
  365 * (y - 1970) + (y - 1969) / 4 - (y - 1901) / 100 + (y - 1601) / 400.

Definition InLeapYear (y : Z) : bool :=
  (y mod 4 =? 0) && (negb (y mod 100 =? 0) || (y mod 400 =? 0)).

Definition DaysInMonth (y m : Z) : Z :=
  if m =? 2 then (if InLeapYear y then 29 else 28)
  else if (m =? 4) || (m =? 6) || (m =? 9) || (m =? 11) then 30
  else 31.

(** Days of the year before the first of month [m] (1 to 12). *)
Definition DaysBeforeMonth (y m : Z) : Z :=
  nth (Z.to_nat (m - 1)) [0; 31; 59; 90; 120; 151; 181; 212; 243; 273; 304; 334] 0
  + (if InLeapYear y && (3 <=? m) then 1 else 0).

Definition MakeDay (y m d : Z) : Z :=
  DayFromYear y + DaysBeforeMonth y m + (d - 1).

Definition MakeTime (h mi s ms : Z) : Z :=
  h * 3600000 + mi * 60000 + s * 1000 + ms.

Definition MakeDate (day time : Z) : Z := day * msPerDay + time.

Definition digit (c : ascii) : option Z :=
  let n := Z.of_N (N_of_ascii c) in
  if (48 <=? n) && (n <=? 57) then Some (n - 48) else None.

(** Read exactly [k] decimal digits. *)
Fixpoint digits (k : nat) (acc : Z) (s : string) : option (Z * string) :=
  match k with
  | O => Some (acc, s)
  | S k' =>
      match s with
      | String c s' =>
          match digit c with
          | Some d => digits k' (10 * acc + d) s'
          | None => None
          end
      | EmptyString => None
      end
  end.

(** The offset that ends a date-time: [Z], [+HH:mm], [-HH:mm], or
    nothing, which means local time. *)
Definition parseOffset (LocalTZA : Z) (s : string) : option Z :=
  match s with
  | EmptyString => Some LocalTZA
  | String "Z" EmptyString => Some 0
  | String sign s1 =>
      match digits 2 0 s1 with
      | Some (h, String ":" s2) =>
          match digits 2 0 s2 with
          | Some (mi, EmptyString) =>
              if (h <=? 23) && (mi <=? 59) then
                if Ascii.eqb sign "+" then Some (MakeTime h mi 0 0)
                else if Ascii.eqb sign "-" then Some (- MakeTime h mi 0 0)
                else None
              else None
          | _ => None
          end
      | _ => None
      end
  end.

(** [HH:mm], [HH:mm:ss] or [HH:mm:ss.sss], then the offset; the answer
    is the time within the day less the offset. *)
Definition parseTime (LocalTZA : Z) (s : string) : option Z :=
  match digits 2 0 s with
  | Some (h, String ":" s1) =>
      match digits 2 0 s1 with
      | Some (mi, s2) =>
          let '(sec, ms, s5) :=
            match s2 with
            | String ":" s3 =>
                match digits 2 0 s3 with
                | Some (sec, String "." s4) =>
                    match digits 3 0 s4 with
                    | Some (ms, s5) => (Some sec, Some ms, s5)
                    | None => (None, None, s4)
                    end
                | Some (sec, s4) => (Some sec, Some 0, s4)
                | None => (None, None, s3)
                end
            | _ => (Some 0, Some 0, s2)
            end in
          match sec, ms, parseOffset LocalTZA s5 with
          | Some sec, Some ms, Some off =>
              if ((h <=? 23) && (mi <=? 59) && (sec <=? 59))
                 || ((h =? 24) && (mi =? 0) && (sec =? 0) && (ms =? 0))
              then Some (MakeTime h mi sec ms - off)
              else None
          | _, _, _ => None
          end
      | None => None
      end
  | _ => None
  end.

(** [Date.parse] of a host that reads the date-time string format of the
    language with a four-digit year and nothing else: [YYYY], [YYYY-MM],
    [YYYY-MM-DD], each alone (UTC) or, after [T], with a time and an
    optional offset.  A string outside the format, or with a field out
    of range, gives NaN here; engines read more than the format (a day
    past the end of its month, a space for the [T], other notations),
    so this host stands for them only on strings of the format and on
    strings without any date in them.  [LocalTZA] is the offset of the
    host's time zone in milliseconds. *)
Definition Date_parse (LocalTZA : Z) (str : string) : Number :=
  match digits 4 0 str with
  | Some (y, s1) =>
      let '(m, d, s5) :=
        match s1 with
        | String "-" s2 =>
            match digits 2 0 s2 with
            | Some (m, String "-" s3) =>
                match digits 2 0 s3 with
                | Some (d, s4) => (Some m, Some d, s4)
                | None => (None, None, s3)
                end
            | Some (m, s3) => (Some m, Some 1, s3)
            | None => (None, None, s2)
            end
        | _ => (Some 1, Some 1, s1)
        end in
      match m, d with
      | Some m, Some d =>
          if (1 <=? m) && (m <=? 12) && (1 <=? d) && (d <=? DaysInMonth y m)
          then
            match s5 with
            | EmptyString => Some (MakeDate (MakeDay y m d) 0)
            | String "T" s6 =>
                match parseTime LocalTZA s6 with
                | Some t => Some (MakeDate (MakeDay y m d) t)
                | None => NaN
                end
            | _ => NaN
            end
          else NaN
      | _, _ => NaN
      end
  | None => NaN
  end.

End JS.

(* ================================================================== *)
(** ** The data *)

(** The answer of the schedule endpoint.  A field is optional where the
    component reads it through [?.] or with a [||] default; the others
    are as the [Event], [Competition] and [Competitor] interfaces declare
    them.  In particular every event has its [competitions] array: the
    component reads [event.competitions[0]] unguarded, and a body whose
    event lacks the array, which would end in the [catch], is not an
    answer of this type. *)
Module Raw.

Record Team := {
  displayName : option string;
  abbreviation : option string;
  logo : option string
}.

Record Competitor := {
  homeAway : string;
  team : option Team;
  score : option string
}.

Record Competition := {
  competitors : option (list Competitor)
}.

Record StatusType := {
  completed : option bool
}.

Record EventStatus := {
  type : option StatusType
}.

Record Event := {
  id : string;
  date : string;
  name : string;
  shortName : string;
  status : option EventStatus;
  competitions : list Competition
}.

Record ScheduleResponse := {
  events : option (list Event)
}.

End Raw.

(** A row of the team table. *)
Module Team.

Record t := {
  id : string;
  displayName : string;
  abbreviation : string;
  location : string;
  logos : list string
}.

End Team.

(** The [team] object of one side of a [Game]. *)
Record TeamSnapshot := {
  displayName : string;
  abbreviation : string;
  logo : string
}.

(** [homeTeam] and [awayTeam] of a [Game]. *)
Record Side := {
  team : TeamSnapshot;
  score : option string
}.

Record Game := {
  id : string;
  date : string;
  name : string;
  shortName : string;
  completed : bool;
  homeTeam : Side;
  awayTeam : Side
}.

Record TeamSchedule := {
  lastGames : list Game;
  nextGames : list Game
}.

(** What a [catch] clause receives: an [Error] with its message, or some
    other value. *)
Inductive Thrown :=
| ErrorObject (message : string)
| OtherValue.

(** A computation that returns or throws. *)
Definition Except (A : Type) : Type := Thrown + A.

Definition ret {A} (a : A) : Except A := inr a.

Definition throw {A} (e : Thrown) : Except A := inl e.

Definition bind {A B} (m : Except A) (k : A -> Except B) : Except B :=
  match m with
  | inl e => inl e
  | inr a => k a
  end.

Notation "x <- m ;; k" := (bind m (fun x => k))
  (at level 61, m at next level, right associativity).

(** The response [fetch] resolves with; [json] is what [response.json()]
    settles with. *)
Record Response := {
  status : nat;
  json : Except Raw.ScheduleResponse
}.

(** [response.ok]: the status is in the range 200 to 299. *)
Definition ok (response : Response) : bool :=
  ((200 <=? status response) && (status response <=? 299))%nat.

(** The hooks of the component that the schedule touches. *)
Record State := {
  selectedTeam : option Team.t;
  teamSchedule : option TeamSchedule;
  scheduleLoading : bool;
  scheduleError : option string
}.

Definition setSelectedTeam (v : option Team.t) (st : State) : State :=
  {| selectedTeam := v;
     teamSchedule := teamSchedule st;
     scheduleLoading := scheduleLoading st;
     scheduleError := scheduleError st |}.

Definition setTeamSchedule (v : option TeamSchedule) (st : State) : State :=
  {| selectedTeam := selectedTeam st;
     teamSchedule := v;
     scheduleLoading := scheduleLoading st;
     scheduleError := scheduleError st |}.

Definition setScheduleLoading (v : bool) (st : State) : State :=
  {| selectedTeam := selectedTeam st;
     teamSchedule := teamSchedule st;
     scheduleLoading := v;
     scheduleError := scheduleError st |}.

Definition setScheduleError (v : option string) (st : State) : State :=
  {| selectedTeam := selectedTeam st;
     teamSchedule := teamSchedule st;
     scheduleLoading := scheduleLoading st;
     scheduleError := v |}.

(** The values the hooks start with. *)
Definition initialState : State :=
  {| selectedTeam := None;
     teamSchedule := None;
     scheduleLoading := false;
     scheduleError := None |}.

(* ================================================================== *)
(** ** [fetchTeamSchedule] *)

Section Resolver.

(** [new Date(s).getTime()] on the host, NaN for an invalid date. *)
Variable getTime : string -> JS.Number.

(** [event.competitions[0]?.competitors?.find((c) => c.homeAway === side)] *)
Definition findCompetitor (side : string) (event : Raw.Event)
  : option Raw.Competitor :=
  match Raw.competitions event with
  | [] => None
  | first :: _ =>
      match Raw.competitors first with
      | None => None
      | Some cs => find (fun c => String.eqb (Raw.homeAway c) side) cs
      end
  end.

(** [competitor?.team?.displayName] and its two siblings *)
Definition teamField (f : Raw.Team -> option string)
    (competitor : option Raw.Competitor) : option string :=
  match competitor with
  | None => None
  | Some c =>
      match Raw.team c with
      | None => None
      | Some t => f t
      end
  end.

(** [competitor?.score] *)
Definition scoreOf (competitor : option Raw.Competitor) : option string :=
  match competitor with
  | None => None
  | Some c => Raw.score c
  end.

(** [event.status?.type?.completed] *)
Definition completedFlag (event : Raw.Event) : option bool :=
  match Raw.status event with
  | None => None
  | Some s =>
      match Raw.type s with
      | None => None
      | Some ty => Raw.completed ty
      end
  end.

Definition sideOf (competitor : option Raw.Competitor) : Side :=
  {| team :=
       {| displayName := JS.or_string (teamField Raw.displayName competitor) "TBD";
          abbreviation := JS.or_string (teamField Raw.abbreviation competitor) "TBD";
          logo := JS.or_string (teamField Raw.logo competitor) "" |};
     score := scoreOf competitor |}.

(** The object literal [game] of the typed revision. *)
Definition toGame (event : Raw.Event) : Game :=
  let homeCompetitor := findCompetitor "home" event in
  let awayCompetitor := findCompetitor "away" event in
  {| id := Raw.id event;
     date := Raw.date event;
     name := Raw.name event;
     shortName := Raw.shortName event;
     completed := JS.or_false (completedFlag event);
     homeTeam := sideOf homeCompetitor;
     awayTeam := sideOf awayCompetitor |}.

(** The same literal in [src/app/page.tsx], where every field repeats
    the lookup. *)
Definition toGame_page (event : Raw.Event) : Game :=
  {| id := Raw.id event;
     date := Raw.date event;
     name := Raw.name event;
     shortName := Raw.shortName event;
     completed := JS.or_false (completedFlag event);
     homeTeam :=
       {| team :=
            {| displayName :=
                 JS.or_string (teamField Raw.displayName (findCompetitor "home" event)) "TBD";
               abbreviation :=
                 JS.or_string (teamField Raw.abbreviation (findCompetitor "home" event)) "TBD";
               logo :=
                 JS.or_string (teamField Raw.logo (findCompetitor "home" event)) "" |};
          score := scoreOf (findCompetitor "home" event) |};
     awayTeam :=
       {| team :=
            {| displayName :=
                 JS.or_string (teamField Raw.displayName (findCompetitor "away" event)) "TBD";
               abbreviation :=
                 JS.or_string (teamField Raw.abbreviation (findCompetitor "away" event)) "TBD";
               logo :=
                 JS.or_string (teamField Raw.logo (findCompetitor "away" event)) "" |};
          score := scoreOf (findCompetitor "away" event) |} |}.

(** The two local arrays the loop pushes to. *)
Record Buckets := {
  completedGames : list Game;
  upcomingGames : list Game
}.

(** The callback of [events.forEach]. *)
Definition visit (now : Z) (acc : Buckets) (event : Raw.Event) : Buckets :=
  let gameDate := getTime (Raw.date event) in
  let game := toGame event in
  if completed game then
    {| completedGames := completedGames acc ++ [game];
       upcomingGames := upcomingGames acc |}
  else if JS.gt gameDate (Some now) then
    {| completedGames := completedGames acc;
       upcomingGames := upcomingGames acc ++ [game] |}
  else acc.

Definition forEach (now : Z) (events : list Raw.Event) : Buckets :=
  fold_left (visit now) events
    {| completedGames := []; upcomingGames := [] |}.

(** [(a, b) => new Date(b.date).getTime() - new Date(a.date).getTime()] *)
Definition mostRecentFirst (a b : Game) : JS.Number :=
  JS.sub (getTime (date b)) (getTime (date a)).

(** [(a, b) => new Date(a.date).getTime() - new Date(b.date).getTime()] *)
Definition earliestFirst (a b : Game) : JS.Number :=
  JS.sub (getTime (date a)) (getTime (date b)).

(** From [const now] to the object handed to [setTeamSchedule]. *)
Definition schedule (now : Z) (events : list Raw.Event) : TeamSchedule :=
  let b := forEach now events in
  {| lastGames := JS.slice0 3 (JS.sort mostRecentFirst (completedGames b));
     nextGames := JS.slice0 3 (JS.sort earliestFirst (upcomingGames b)) |}.

(** The network: what [fetch] settles with for a given address. *)
Variable fetch : string -> Except Response.

Definition scheduleUrl (teamId : string) : string :=
  String.append "https://site.api.espn.com/apis/site/v2/sports/football/nfl/teams/"
    (String.append teamId "/schedule").

(** The [try] block up to the value given to [setTeamSchedule]. *)
Definition resolveSchedule (now : Z) (teamId : string) : Except TeamSchedule :=
  response <- fetch (scheduleUrl teamId) ;;
  if negb (ok response) then
    throw (ErrorObject
             (String.append "HTTP error! status: " (JS.toString (status response))))
  else
    data <- json response ;;
    let events := JS.or_empty (Raw.events data) in
    ret (schedule now events).

(** [err instanceof Error ? err.message : "Failed to load schedule"] *)
Definition failureMessage (err : Thrown) : string :=
  match err with
  | ErrorObject message => message
  | OtherValue => "Failed to load schedule"
  end.

(** The state once the promise of [fetchTeamSchedule] has settled. *)
Definition fetchTeamSchedule (now : Z) (teamId : string) (st : State) : State :=
  let st := setScheduleLoading true st in
  let st := setScheduleError None st in
  let st :=
    match resolveSchedule now teamId with
    | inr s => setTeamSchedule (Some s) st
    | inl err => setScheduleError (Some (failureMessage err)) st
    end in
  setScheduleLoading false st.

Definition handleTeamClick (now : Z) (t : Team.t) (st : State) : State :=
  let st := setSelectedTeam (Some t) st in
  let st := setTeamSchedule None st in
  fetchTeamSchedule now (Team.id t) st.

End Resolver.

Definition closeModal (st : State) : State :=
  setScheduleError None (setTeamSchedule None (setSelectedTeam None st)).

(* ================================================================== *)
(** ** What the modal prints for a game *)

Module View.

(** The texts and image sources of one card under "Recent Games". *)
Record RecentCard := {
  key : string;
  awayLogo : string;
  awayAbbreviation : string;
  awayScore : string;
  homeScore : string;
  homeAbbreviation : string;
  homeLogo : string
}.

Definition recentCard (game : Game) : RecentCard :=
  {| key := id game;
     awayLogo := JS.or_string (Some (logo (team (awayTeam game)))) "/placeholder.svg";
     awayAbbreviation := abbreviation (team (awayTeam game));
     awayScore := JS.or_string (score (awayTeam game)) "0";
     homeScore := JS.or_string (score (homeTeam game)) "0";
     homeAbbreviation := abbreviation (team (homeTeam game));
     homeLogo := JS.or_string (Some (logo (team (homeTeam game)))) "/placeholder.svg" |}.

(** [teamSchedule.lastGames.map(...)]; the empty list stands for the
    line "No recent games found". *)
Definition recentCards (s : TeamSchedule) : list RecentCard :=
  map recentCard (lastGames s).

(** One card under "Upcoming Games": no score is printed there. *)
Record UpcomingCard := {
  upcomingKey : string;
  visitorsLogo : string;
  visitorsAbbreviation : string;
  hostsAbbreviation : string;
  hostsLogo : string
}.

Definition upcomingCard (game : Game) : UpcomingCard :=
  {| upcomingKey := id game;
     visitorsLogo := JS.or_string (Some (logo (team (awayTeam game)))) "/placeholder.svg";
     visitorsAbbreviation := abbreviation (team (awayTeam game));
     hostsAbbreviation := abbreviation (team (homeTeam game));
     hostsLogo := JS.or_string (Some (logo (team (homeTeam game)))) "/placeholder.svg" |}.

Definition upcomingCards (s : TeamSchedule) : list UpcomingCard :=
  map upcomingCard (nextGames s).

(** The body of the modal: [scheduleLoading && ...], [scheduleError && ...]
    and [teamSchedule && ...].  An empty message is falsy and shows no
    panel. *)
Record Modal := {
  loadingPanel : bool;
  errorPanel : option string;
  schedulePanel : option (list RecentCard * list UpcomingCard)
}.

Definition modalBody (st : State) : Modal :=
  {| loadingPanel := scheduleLoading st;
     errorPanel :=
       match scheduleError st with
       | Some message => if String.eqb message "" then None else Some message
       | None => None
       end;
     schedulePanel :=
       match teamSchedule st with
       | Some s => Some (recentCards s, upcomingCards s)
       | None => None
       end |}.

(** [selectedTeam && ...] *)
Definition modal (st : State) : option Modal :=
  match selectedTeam st with
  | Some _ => Some (modalBody st)
  | None => None
  end.

End View.

(* ================================================================== *)
(** ** Vocabulary of the statements *)

(** The comparison function is, on the elements of [a], the difference
    of an integer key. *)
Definition by_key {A} (comparefn : A -> A -> JS.Number) (key : A -> Z)
    (a : list A) : Prop :=
  forall x y, In x a -> In y a -> comparefn x y = Some (key x - key y).

(** Equality of two numbers as values, NaN being one more value. *)
Definition sameNumber (a b : JS.Number) : bool :=
  match a, b with
  | Some x, Some y => x =? y
  | None, None => true
  | _, _ => false
  end.

(** [needle] occurs in [text]. *)
Definition contains (text needle : string) : Prop :=
  exists before after,
    text = String.append before (String.append needle after).

Section Vocabulary.

Variable getTime : string -> JS.Number.

(** The timestamp of a game, NaN when its date does not parse. *)
Definition timestamp (game : Game) : JS.Number := getTime (date game).

(** The timestamp as an integer, for games whose date parses. *)
Definition stamp (game : Game) : Z :=
  match timestamp game with
  | Some t => t
  | None => 0
  end.

(** Non-increasing by timestamp: every timestamp is a number, and none
    is smaller than one that comes later in the list. *)
Definition newestFirst (l : list Game) : Prop :=
  StronglySorted
    (fun a b => exists x y, timestamp a = Some x /\ timestamp b = Some y /\ y <= x) l.

(** Non-decreasing by timestamp, likewise. *)
Definition soonestFirst (l : list Game) : Prop :=
  StronglySorted
    (fun a b => exists x y, timestamp a = Some x /\ timestamp b = Some y /\ x <= y) l.

(** The least one can ask of a list called non-increasing: no game is
    followed, anywhere later in the list, by one whose timestamp
    compares greater with [<]. *)
Definition neverRising (l : list Game) : Prop :=
  StronglySorted (fun a b => JS.lt (timestamp a) (timestamp b) = false) l.

(** The event's timestamp is strictly later than [now]. *)
Definition inFuture (now : Z) (event : Raw.Event) : Prop :=
  exists t, getTime (Raw.date event) = Some t /\ now < t.

(** Where the [if]/[else if] of the loop sends a game. *)
Inductive Placement := Recent | Upcoming | Neither.

Definition placement (now : Z) (game : Game) : Placement :=
  if completed game then Recent
  else if JS.gt (timestamp game) (Some now) then Upcoming
  else Neither.

(** The test that sends a game to the upcoming ones. *)
Definition later (now : Z) (game : Game) : bool :=
  negb (completed game) && JS.gt (timestamp game) (Some now).

(** The competitors of the first competition, none when there is no
    competition or it has no competitor list. *)
Definition participants (event : Raw.Event) : list Raw.Competitor :=
  match Raw.competitions event with
  | [] => []
  | first :: _ => JS.or_empty (Raw.competitors first)
  end.

(** No participant carries the side tag [side]. *)
Definition sideMissing (side : string) (event : Raw.Event) : Prop :=
  forall c, In c (participants event) -> Raw.homeAway c <> side.

(** The team of a side whose participant, or whose team, is missing. *)
Definition TBD : TeamSnapshot :=
  {| displayName := "TBD"; abbreviation := "TBD"; logo := "" |}.

(** A field that [||] replaces: absent, or the empty string. *)
Definition blank (v : option string) : Prop := v = None \/ v = Some "".

(** [out] is [v || fallback]. *)
Definition fieldFrom (v : option string) (fallback out : string) : Prop :=
  (blank v -> out = fallback)
  /\ (forall s, v = Some s -> s <> "" -> out = s).

(** Each field of [out] comes from the participant [c] and its team [t],
    or is the fallback of that field alone. *)
Definition perField (c : Raw.Competitor) (t : Raw.Team) (out : Side) : Prop :=
  fieldFrom (Raw.displayName t) "TBD" (displayName (team out))
  /\ fieldFrom (Raw.abbreviation t) "TBD" (abbreviation (team out))
  /\ fieldFrom (Raw.logo t) "" (logo (team out))
  /\ score out = Raw.score c.

End Vocabulary.

(* ================================================================== *)
(** ** Sample answers of the endpoint *)

Module Sample.

(** A host in the UTC time zone. *)
Definition getTime : string -> JS.Number := JS.Date_parse 0.

(** 2024-10-01T17:00Z *)
Definition now : Z := 1727802000000.

Definition club (name abbr : string) : Raw.Team :=
  {| Raw.displayName := Some name;
     Raw.abbreviation := Some abbr;
     Raw.logo := Some (String.append "https://a.espncdn.com/i/teamlogos/nfl/500/"
                         (String.append abbr ".png")) |}.

Definition competitor (side : string) (t : Raw.Team) (points : option string)
  : Raw.Competitor :=
  {| Raw.homeAway := side; Raw.team := Some t; Raw.score := points |}.

Definition chiefs : Raw.Team := club "Kansas City Chiefs" "KC".
Definition ravens : Raw.Team := club "Baltimore Ravens" "BAL".

Definition fixture (id date : string) (flag : option bool)
    (home away : option string) : Raw.Event :=
  {| Raw.id := id;
     Raw.date := date;
     Raw.name := "Baltimore Ravens at Kansas City Chiefs";
     Raw.shortName := "BAL @ KC";
     Raw.status := Some {| Raw.type := Some {| Raw.completed := flag |} |};
     Raw.competitions :=
       [ {| Raw.competitors :=
              Some [competitor "home" chiefs home; competitor "away" ravens away] |} ] |}.

Definition played (id date : string) : Raw.Event :=
  fixture id date (Some true) (Some "27") (Some "20").

(** Five completed games, one to five days before [now], oldest first. *)
Definition day1 : Raw.Event := played "401" "2024-09-30T17:00Z".
Definition day2 : Raw.Event := played "402" "2024-09-29T17:00Z".
Definition day3 : Raw.Event := played "403" "2024-09-28T17:00Z".
Definition day4 : Raw.Event := played "404" "2024-09-27T17:00Z".
Definition day5 : Raw.Event := played "405" "2024-09-26T17:00Z".

Definition fiveDays : list Raw.Event := [day5; day4; day3; day2; day1].

(** Three completed games, the second with a date that is no date. *)
Definition undated : list Raw.Event :=
  [ played "501" "2024-09-08T17:00Z";
    played "502" "TBD";
    played "503" "2024-09-15T17:00Z" ].

(** A game five days ahead, announced before the sides are known: no
    status and no competition. *)
Definition opener : Raw.Event :=
  {| Raw.id := "601";
     Raw.date := "2024-10-06T17:00Z";
     Raw.name := "TBD at TBD";
     Raw.shortName := "TBD @ TBD";
     Raw.status := None;
     Raw.competitions := [] |}.

(** A game that kicked off half an hour before [now]; the visitors have
    no score yet. *)
Definition live : Raw.Event :=
  fixture "602" "2024-10-01T16:30Z" (Some false) (Some "7") None.

(** A completed game whose home side has no score and whose visitors
    have no name. *)
Definition patchy : Raw.Event :=
  {| Raw.id := "603";
     Raw.date := "2024-09-22T17:00Z";
     Raw.name := "Baltimore Ravens at Kansas City Chiefs";
     Raw.shortName := "BAL @ KC";
     Raw.status := Some {| Raw.type := Some {| Raw.completed := Some true |} |};
     Raw.competitions :=
       [ {| Raw.competitors :=
              Some [ competitor "home" chiefs None;
                     competitor "away"
                       {| Raw.displayName := Some "";
                          Raw.abbreviation := Some "BAL";
                          Raw.logo := None |}
                       (Some "20") ] |} ] |}.

(** Two completed games at the same instant, then a later one. *)
Definition sameHour : list Raw.Event :=
  [ played "701" "2024-09-29T17:00Z";
    played "702" "2024-09-29T17:00Z";
    played "703" "2024-09-30T17:00Z" ].

Definition week : list Raw.Event := [day2; live; opener; patchy; day1].

Definition franchise (id name abbr place : string) : Team.t :=
  {| Team.id := id;
     Team.displayName := name;
     Team.abbreviation := abbr;
     Team.location := place;
     Team.logos := [] |}.

Definition kansasCity : Team.t := franchise "12" "Kansas City Chiefs" "KC" "Kansas City".
Definition houston : Team.t := franchise "34" "Houston Texans" "HOU" "Houston".
Definition nobody : Team.t := franchise "0" "" "" "".

(** A network that knows two teams: one with a week of events, one whose
    answer has no event list; every other address is not found. *)
Definition network (url : string) : Except Response :=
  if String.eqb url (scheduleUrl "12") then
    inr {| status := 200; json := inr {| Raw.events := Some week |} |}
  else if String.eqb url (scheduleUrl "34") then
    inr {| status := 200; json := inr {| Raw.events := None |} |}
  else
    inr {| status := 404; json := inl (ErrorObject "Unexpected token") |}.

End Sample.

(* ================================================================== *)
(** ** The team directory *)

(** The answer of the teams endpoint, as the [APIResponse] and [TeamData]
    interfaces declare it.  [Team.logos] holds the [href] of each logo. *)
Module Api.

Record TeamData := {
  team : Team.t
}.

Record League := {
  teams : list TeamData
}.

Record Sport := {
  leagues : list League
}.

Record APIResponse := {
  sports : list Sport
}.

Record Response := {
  status : nat;
  json : Except APIResponse
}.

Definition ok (response : Response) : bool :=
  ((200 <=? status response) && (status response <=? 299))%nat.

End Api.

(** The hooks of the component that the team table reads. *)
Record Directory := {
  teams : list Team.t;
  loading : bool;
  error : option string
}.

Definition setTeams (v : list Team.t) (d : Directory) : Directory :=
  {| teams := v; loading := loading d; error := error d |}.

Definition setLoading (v : bool) (d : Directory) : Directory :=
  {| teams := teams d; loading := v; error := error d |}.

Definition setError (v : option string) (d : Directory) : Directory :=
  {| teams := teams d; loading := loading d; error := v |}.

Definition initialDirectory : Directory :=
  {| teams := []; loading := true; error := None |}.

Section Loader.

(** The message of the [TypeError] the engine throws when a property,
    named by the argument, is read from [undefined]. *)
Variable undefinedMessage : string -> string.

Variable fetch : string -> Except Api.Response.

Definition teamsUrl : string :=
  "https://site.api.espn.com/apis/site/v2/sports/football/nfl/teams".

(** [data.sports[0].leagues[0].teams.map((teamObj) => teamObj.team)] *)
Definition teamsData (data : Api.APIResponse) : Except (list Team.t) :=
  match Api.sports data with
  | [] => throw (ErrorObject (undefinedMessage "leagues"))
  | sport :: _ =>
      match Api.leagues sport with
      | [] => throw (ErrorObject (undefinedMessage "teams"))
      | league :: _ => ret (map Api.team (Api.teams league))
      end
  end.

(** The [try] block of [fetchTeams] up to the value given to [setTeams]. *)
Definition loadTeams : Except (list Team.t) :=
  response <- fetch teamsUrl ;;
  if negb (Api.ok response) then
    throw (ErrorObject
             (String.append "HTTP error! status: " (JS.toString (Api.status response))))
  else
    data <- Api.json response ;;
    teamsData data.

(** [err instanceof Error ? err.message : "An error occurred"] *)
Definition directoryMessage (err : Thrown) : string :=
  match err with
  | ErrorObject message => message
  | OtherValue => "An error occurred"
  end.

(** The directory once the promise of [fetchTeams] has settled. *)
Definition fetchTeams (d : Directory) : Directory :=
  let d :=
    match loadTeams with
    | inr teamsData => setTeams teamsData d
    | inl err => setError (Some (directoryMessage err)) d
    end in
  setLoading false d.

End Loader.

(* ================================================================== *)
(** ** The request in two halves *)

Section Interleaving.

Variable getTime : string -> JS.Number.
Variable fetch : string -> Except Response.

(** [fetchTeamSchedule] up to its first [await]. *)
Definition beginFetch (st : State) : State :=
  setScheduleError None (setScheduleLoading true st).

(** [fetchTeamSchedule] from the answer on: the rest of the [try], the
    [catch] and the [finally].  [now] is the instant read then. *)
Definition settleFetch (now : Z) (teamId : string) (st : State) : State :=
  let st :=
    match resolveSchedule getTime fetch now teamId with
    | inr s => setTeamSchedule (Some s) st
    | inl err => setScheduleError (Some (failureMessage err)) st
    end in
  setScheduleLoading false st.

(** [handleTeamClick] up to the first [await] of the request it starts. *)
Definition beginClick (t : Team.t) (st : State) : State :=
  beginFetch (setTeamSchedule None (setSelectedTeam (Some t) st)).

(** What can happen to the modal: a click on a logo, a click on the
    close button, the answer to the request started for a team. *)
Inductive Action :=
| Click (t : Team.t)
| Close
| Settle (teamId : string) (now : Z).

Definition step (st : State) (a : Action) : State :=
  match a with
  | Click t => beginClick t st
  | Close => closeModal st
  | Settle teamId now => settleFetch now teamId st
  end.

Definition run (actions : list Action) (st : State) : State :=
  fold_left step actions st.

End Interleaving.

(* ================================================================== *)
(** ** The page *)

Module Page.

(** One line of the table; [onClick] is the team the logo button hands
    to [handleTeamClick]. *)
Record Row := {
  key : string;
  className : string;
  nameCell : string;
  abbreviationCell : string;
  locationCell : string;
  title : string;
  logoSrc : string;
  logoAlt : string;
  idCell : string;
  onClick : Team.t
}.

(** [team.logos[0]?.href || "/placeholder.svg"] *)
Definition logoOf (t : Team.t) : string :=
  JS.or_string (hd_error (Team.logos t)) "/placeholder.svg".

Definition row (t : Team.t) (index : nat) : Row :=
  {| key := Team.id t;
     className :=
       String.append "hover:bg-gray-50 "
         (if Nat.eqb (Nat.modulo index 2) 0 then "bg-white" else "bg-gray-50");
     nameCell := Team.displayName t;
     abbreviationCell := Team.abbreviation t;
     locationCell := Team.location t;
     title := String.append "Click to see "
                (String.append (Team.displayName t) " schedule");
     logoSrc := logoOf t;
     logoAlt := String.append (Team.displayName t) " logo";
     idCell := Team.id t;
     onClick := t |}.

(** [a.map((x, index) => f(x, index))], counting from [index]. *)
Fixpoint mapFrom {A B} (f : A -> nat -> B) (index : nat) (a : list A) : list B :=
  match a with
  | [] => []
  | x :: rest => f x index :: mapFrom f (S index) rest
  end.

(** [teams.map((team, index) => ...)] *)
Definition rows (ts : list Team.t) : list Row := mapFrom row 0 ts.

(** The top of the modal. *)
Record Header := {
  headerLogo : string;
  headerAlt : string;
  headerName : string;
  headerLocation : string
}.

Definition header (t : Team.t) : Header :=
  {| headerLogo := logoOf t;
     headerAlt := String.append (Team.displayName t) " logo";
     headerName := Team.displayName t;
     headerLocation := Team.location t |}.

(** What the component returns. *)
Inductive Screen :=
| LoadingScreen
| ErrorScreen (message : string)
| TableScreen (lines : list Row) (modal : option (Header * View.Modal)).

Definition table (d : Directory) (st : State) : Screen :=
  TableScreen (rows (teams d))
    match selectedTeam st with
    | Some t => Some (header t, View.modalBody st)
    | None => None
    end.

(** [if (loading) return ...; if (error) return ...; return ...] *)
Definition render (d : Directory) (st : State) : Screen :=
  if loading d then LoadingScreen
  else
    match error d with
    | Some message =>
        if String.eqb message "" then table d st else ErrorScreen message
    | None => table d st
    end.

End Page.

(* ================================================================== *)
(** ** Sample answers of the teams endpoint *)

Module Demo.

Definition undefinedMessage (property : string) : string :=
  String.append "Cannot read properties of undefined (reading '"
    (String.append property "')").

Definition chiefs : Team.t :=
  {| Team.id := "12";
     Team.displayName := "Kansas City Chiefs";
     Team.abbreviation := "KC";
     Team.location := "Kansas City";
     Team.logos := ["https://a.espncdn.com/i/teamlogos/nfl/500/kc.png";
                    "https://a.espncdn.com/i/teamlogos/nfl/500-dark/kc.png"] |}.

Definition texans : Team.t :=
  {| Team.id := "34";
     Team.displayName := "Houston Texans";
     Team.abbreviation := "HOU";
     Team.location := "Houston";
     Team.logos := [] |}.

Definition ravens : Team.t :=
  {| Team.id := "33";
     Team.displayName := "Baltimore Ravens";
     Team.abbreviation := "BAL";
     Team.location := "Baltimore";
     Team.logos := [""] |}.

Definition nfl : Api.League :=
  {| Api.teams := [ {| Api.team := chiefs |};
                    {| Api.team := texans |};
                    {| Api.team := ravens |} ] |}.

Definition other : Api.League :=
  {| Api.teams := [ {| Api.team := ravens |} ] |}.

Definition football : Api.APIResponse :=
  {| Api.sports := [ {| Api.leagues := [nfl; other] |};
                     {| Api.leagues := [other] |} ] |}.

Definition online (url : string) : Except Api.Response :=
  inr {| Api.status := 200; Api.json := inr football |}.

Definition unavailable (url : string) : Except Api.Response :=
  inr {| Api.status := 503; Api.json := inl (ErrorObject "Unexpected token") |}.

Definition noSports (url : string) : Except Api.Response :=
  inr {| Api.status := 200; Api.json := inr {| Api.sports := [] |} |}.

(** An event with two competitions, and two competitors tagged "home"
    in the first. *)
Definition crowded : Raw.Event :=
  {| Raw.id := "801";
     Raw.date := "2024-10-06T17:00Z";
     Raw.name := "Baltimore Ravens at Kansas City Chiefs";
     Raw.shortName := "BAL @ KC";
     Raw.status := None;
     Raw.competitions :=
       [ {| Raw.competitors :=
              Some [ Sample.competitor "away" Sample.ravens None;
                     Sample.competitor "home" Sample.chiefs (Some "3");
                     Sample.competitor "home" Sample.ravens (Some "9") ] |};
         {| Raw.competitors :=
              Some [ Sample.competitor "home" Sample.ravens None ] |} ] |}.

End Demo.

(* ================================================================== *)
(** ** The sort of one engine *)

(** [Array.prototype.sort] as V8 runs it on an array of fewer than 64
    elements.  The minimum run length is then the length of the array:
    the engine finds the run the array starts with, reverses it when it
    is strictly descending, and inserts each later element into it by
    binary search; nothing is merged.  The comparison function is
    wrapped as in [JS.SortCompare]. *)
Module V8.

Section Sort.
Context {A : Type}.
Variable comparefn : A -> A -> JS.Number.

(** The loop of [CountAndMakeRun]: how many elements of [rest] continue
    the run that ends with [previousElement]. *)
Fixpoint extendRun (isDescending : bool) (previousElement : A) (rest : list A)
  : nat :=
  match rest with
  | [] => O
  | currentElement :: rest' =>
      let order := JS.SortCompare comparefn currentElement previousElement in
      if isDescending then
        if order >=? 0 then O
        else S (extendRun isDescending currentElement rest')
      else
        if order <? 0 then O
        else S (extendRun isDescending currentElement rest')
  end.

(** [CountAndMakeRun(0, length)]: the array once the run is made
    ascending, and the length of the run. *)
Definition CountAndMakeRun (a : list A) : list A * nat :=
  match a with
  | elementHigh :: elementLow :: rest =>
      let isDescending :=
        JS.SortCompare comparefn elementLow elementHigh <? 0 in
      let runLength := S (S (extendRun isDescending elementLow rest)) in
      if isDescending
      then (rev (firstn runLength a) ++ skipn runLength a, runLength)
      else (a, runLength)
  | _ => (a, List.length a)
  end.

(** The search loop of [BinaryInsertionSort]: [pivot] belongs at the
    index returned.  [fuel] bounds the number of rounds; the distance
    from [left] to [right] is enough. *)
Fixpoint insertionPoint (fuel : nat) (pivot : A) (a : list A)
    (left right : nat) : nat :=
  match fuel with
  | O => left
  | S fuel' =>
      if Nat.ltb left right then
        let mid := Nat.add left (Nat.div2 (Nat.sub right left)) in
        match nth_error a mid with
        | Some element =>
            if JS.SortCompare comparefn pivot element <? 0
            then insertionPoint fuel' pivot a left mid
            else insertionPoint fuel' pivot a (S mid) right
        | None => left
        end
      else left
  end.

(** One round of [BinaryInsertionSort]: [pivot], the element next to the
    ordered part [a], is moved to its insertion point. *)
Definition place (a : list A) (pivot : A) : list A :=
  let left := insertionPoint (List.length a) pivot a O (List.length a) in
  firstn left a ++ pivot :: skipn left a.

Definition BinaryInsertionSort (run rest : list A) : list A :=
  fold_left place rest run.

Definition sort (a : list A) : list A :=
  match a with
  | [] => a
  | [_] => a
  | _ =>
      let '(made, runLength) := CountAndMakeRun a in
      BinaryInsertionSort (firstn runLength made) (skipn runLength made)
  end.

End Sort.

End V8.

(** [schedule] with the sort of a given engine. *)
Definition scheduleWith
    (engine : (Game -> Game -> JS.Number) -> list Game -> list Game)
    (getTime : string -> JS.Number) (now : Z) (events : list Raw.Event)
  : TeamSchedule :=
  let b := forEach getTime now events in
  {| lastGames :=
       JS.slice0 3 (engine (mostRecentFirst getTime) (completedGames b));
     nextGames :=
       JS.slice0 3 (engine (earliestFirst getTime) (upcomingGames b)) |}.

(** What the language asks of the sort of every engine when the
    comparison function is consistent, here the difference of a key: the
    result is in key order and keeps elements of equal key in the order
    of the array. *)
Definition conforming
    (engine : (Game -> Game -> JS.Number) -> list Game -> list Game) : Prop :=
  forall comparefn key a,
    by_key comparefn key a ->
    StronglySorted (fun u v => key u <= key v) (engine comparefn a)
    /\ forall k, filter (fun x => key x =? k) (engine comparefn a)
                 = filter (fun x => key x =? k) a.

(** Seven completed games, two of them undated, three on 2 September. *)
Module Week1.

Definition games : list Raw.Event :=
  [ Sample.played "710" "2024-09-01T17:00Z";
    Sample.played "711" "2024-09-02T17:00Z";
    Sample.played "712" "TBD";
    Sample.played "713" "2024-09-01T17:00Z";
    Sample.played "714" "TBD";
    Sample.played "715" "2024-09-02T17:00Z";
    Sample.played "716" "2024-09-02T17:00Z" ].

(** 2024-09-02T17:00Z *)
Definition secondOfSeptember : Z := 1725296400000.

End Week1.

(* ================================================================== *)
(** ** Facts about the host language *)

Section SortFacts.
Context {A : Type}.
Variable comparefn : A -> A -> JS.Number.

Local Abbreviation shift := (JS.shift comparefn).
Local Abbreviation sort := (JS.sort comparefn).
Local Abbreviation SortCompare := (JS.SortCompare comparefn).

Lemma shift_perm (element : A) (rp : list A) :
  Permutation (shift element rp) (element :: rp).
Proof.
  induction rp as [|tmp rest IH]; simpl.
  - apply Permutation_refl.
  - destruct (SortCompare tmp element >? 0).
    + apply perm_trans with (tmp :: element :: rest).
      * now apply perm_skip.
      * apply perm_swap.
    + apply Permutation_refl.
Qed.

Lemma fold_shift_perm (a rp : list A) :
  Permutation (fold_left (fun rp element => shift element rp) a rp)
              (rev a ++ rp).
Proof.
  revert rp; induction a as [|x a IH]; intros rp; simpl.
  - apply Permutation_refl.
  - rewrite <- app_assoc; simpl.
    eapply perm_trans; [apply IH|].
    apply Permutation_app_head.
    eapply perm_trans; [apply shift_perm|].
    apply Permutation_refl.
Qed.

(** Sorting rearranges: nothing is lost, added or repeated. *)
Lemma sort_perm (a : list A) : Permutation (sort a) a.
Proof.
  unfold JS.sort.
  eapply perm_trans; [apply Permutation_sym, Permutation_rev|].
  eapply perm_trans; [apply fold_shift_perm|].
  rewrite app_nil_r. apply Permutation_sym, Permutation_rev.
Qed.

Lemma sort_In (a : list A) (x : A) : In x (sort a) <-> In x a.
Proof.
  split; apply Permutation_in;
    [apply sort_perm | apply Permutation_sym, sort_perm].
Qed.

Lemma sort_length (a : list A) : List.length (sort a) = List.length a.
Proof. apply Permutation_length, sort_perm. Qed.

(** *** Stability

    [p] picks a group of elements none of which compares greater than
    another; the sort leaves the group in the order it found it. *)

Lemma shift_filter (p : A -> bool) (element : A) (rp : list A) :
  (p element = true ->
   forall tmp, In tmp rp -> p tmp = true -> SortCompare tmp element <= 0) ->
  filter p (shift element rp) = filter p (element :: rp).
Proof.
  intros H; induction rp as [|tmp rest IH]; [reflexivity|].
  simpl shift.
  destruct (Z.gtb_spec (SortCompare tmp element) 0) as [Hgt|Hle];
    [|reflexivity].
  simpl.
  rewrite IH by (intros He t Ht; apply H; [exact He | now right]).
  simpl.
  destruct (p element) eqn:He; [|reflexivity].
  destruct (p tmp) eqn:Ht; [|reflexivity].
  specialize (H eq_refl tmp (or_introl eq_refl) Ht). lia.
Qed.

Lemma fold_shift_filter (p : A -> bool) (a rp : list A) :
  (forall x y, In x (rp ++ a) -> In y (rp ++ a) ->
               p x = true -> p y = true -> SortCompare x y <= 0) ->
  filter p (rev (fold_left (fun rp element => shift element rp) a rp))
  = filter p (rev rp) ++ filter p a.
Proof.
  revert rp; induction a as [|e a IH]; intros rp H; simpl fold_left.
  - simpl. now rewrite app_nil_r.
  - rewrite IH.
    + rewrite !filter_rev, shift_filter.
      * simpl. destruct (p e); simpl; [|reflexivity].
        now rewrite <- app_assoc.
      * intros He tmp Ht Hp. apply H; auto; apply in_or_app; simpl; auto.
    + intros x y Hx Hy. apply H.
      * apply in_app_or in Hx. destruct Hx as [Hx|Hx].
        -- apply (Permutation_in _ (shift_perm e rp)) in Hx.
           destruct Hx as [<-|Hx]; apply in_or_app; simpl; auto.
        -- apply in_or_app; simpl; auto.
      * apply in_app_or in Hy. destruct Hy as [Hy|Hy].
        -- apply (Permutation_in _ (shift_perm e rp)) in Hy.
           destruct Hy as [<-|Hy]; apply in_or_app; simpl; auto.
        -- apply in_or_app; simpl; auto.
Qed.

Lemma sort_stable (p : A -> bool) (a : list A) :
  (forall x y, In x a -> In y a ->
               p x = true -> p y = true -> SortCompare x y <= 0) ->
  filter p (sort a) = filter p a.
Proof.
  intros H. unfold JS.sort. now rewrite fold_shift_filter.
Qed.

(** *** Order

    When the comparison function is the difference of an integer key
    on the elements of the array, the result is in key order. *)

Variable key : A -> Z.

Local Abbreviation by_key := (by_key comparefn key).

Lemma shift_sorted (element : A) (rp : list A) :
  by_key (element :: rp) ->
  StronglySorted (fun u v => key v <= key u) rp ->
  StronglySorted (fun u v => key v <= key u) (shift element rp).
Proof.
  intros Hk Hs. induction Hs as [|tmp rest Hs IH Hall]; simpl.
  - repeat constructor.
  - assert (Hc : SortCompare tmp element = key tmp - key element).
    { unfold JS.SortCompare. rewrite Hk; simpl; auto. }
    rewrite Hc.
    destruct (Z.gtb_spec (key tmp - key element) 0) as [Hgt|Hle].
    + constructor.
      * apply IH. intros x y Hx Hy. apply Hk; simpl in *; tauto.
      * rewrite Forall_forall in *. intros v Hv.
        apply (Permutation_in _ (shift_perm element rest)) in Hv.
        destruct Hv as [<-|Hv]; [lia | now apply Hall].
    + constructor.
      * now constructor.
      * constructor; [lia|].
        rewrite Forall_forall in *. intros v Hv.
        specialize (Hall v Hv). lia.
Qed.

Lemma fold_shift_sorted (a rp : list A) :
  by_key (rp ++ a) ->
  StronglySorted (fun u v => key v <= key u) rp ->
  StronglySorted (fun u v => key v <= key u)
    (fold_left (fun rp element => shift element rp) a rp).
Proof.
  revert rp; induction a as [|e a IH]; intros rp Hk Hs; simpl; [exact Hs|].
  apply IH.
  - intros x y Hx Hy. apply Hk.
    + apply in_app_or in Hx. destruct Hx as [Hx|Hx].
      * apply (Permutation_in _ (shift_perm e rp)) in Hx.
        destruct Hx as [<-|Hx]; apply in_or_app; simpl; auto.
      * apply in_or_app; simpl; auto.
    + apply in_app_or in Hy. destruct Hy as [Hy|Hy].
      * apply (Permutation_in _ (shift_perm e rp)) in Hy.
        destruct Hy as [<-|Hy]; apply in_or_app; simpl; auto.
      * apply in_or_app; simpl; auto.
  - apply shift_sorted; [|exact Hs].
    intros x y Hx Hy. apply Hk; apply in_or_app; simpl in *; tauto.
Qed.

Lemma StronglySorted_rev (R : A -> A -> Prop) (l : list A) :
  StronglySorted (fun u v => R v u) l -> StronglySorted R (rev l).
Proof.
  induction 1 as [|x l Hs IH Hall]; simpl; [constructor|].
  revert IH. generalize (rev l) (fun v => proj2 (in_rev l v)).
  intros r Hr IH. induction IH as [|y r Hs' IH' Hall']; simpl.
  - repeat constructor.
  - constructor.
    + apply IH'. intros v Hv. apply Hr. now right.
    + apply Forall_app; split; [exact Hall'|].
      constructor; [|constructor].
      rewrite Forall_forall in Hall. apply Hall, Hr. now left.
Qed.

Lemma sort_sorted (a : list A) :
  by_key a -> StronglySorted (fun u v => key u <= key v) (sort a).
Proof.
  intros Hk. unfold JS.sort. apply StronglySorted_rev.
  apply fold_shift_sorted; [exact Hk | constructor].
Qed.

(** Elements of equal key stay in the order of the input. *)
Lemma sort_stable_key (a : list A) (k : Z) :
  by_key a ->
  filter (fun x => key x =? k) (sort a) = filter (fun x => key x =? k) a.
Proof.
  intros Hk. apply sort_stable. intros x y Hx Hy Ex Ey.
  unfold JS.SortCompare. rewrite (Hk x y Hx Hy). lia.
Qed.

(** Two key-ordered lists that hold, for every key, the same elements
    in the same order are the same list. *)
Lemma sorted_stable_eq (l1 l2 : list A) :
  StronglySorted (fun u v => key u <= key v) l1 ->
  StronglySorted (fun u v => key u <= key v) l2 ->
  (forall k, filter (fun x => key x =? k) l1 = filter (fun x => key x =? k) l2) ->
  l1 = l2.
Proof.
  intros H1; revert l2.
  induction H1 as [|x t1 Hs1 IH Hall1]; intros l2 H2 Hf.
  - destruct l2 as [|y t2]; [reflexivity|].
    specialize (Hf (key y)). simpl in Hf. rewrite Z.eqb_refl in Hf.
    discriminate.
  - destruct H2 as [|y t2 Hs2 Hall2].
    + specialize (Hf (key x)). simpl in Hf. rewrite Z.eqb_refl in Hf.
      discriminate.
    + rewrite Forall_forall in Hall1, Hall2.
      assert (Hxy : key y <= key x).
      { assert (Hin : In x (filter (fun z => key z =? key x) (y :: t2))).
        { rewrite <- Hf. simpl. rewrite Z.eqb_refl. now left. }
        apply filter_In in Hin. destruct Hin as [[->|Hin] _]; [lia|].
        now apply Hall2. }
      assert (Hyx : key x <= key y).
      { assert (Hin : In y (filter (fun z => key z =? key y) (x :: t1))).
        { rewrite Hf. simpl. rewrite Z.eqb_refl. now left. }
        apply filter_In in Hin. destruct Hin as [[->|Hin] _]; [lia|].
        now apply Hall1. }
      assert (Hk : key y = key x) by lia.
      assert (Exy : x = y).
      { specialize (Hf (key x)). simpl in Hf.
        rewrite Hk, Z.eqb_refl in Hf. now injection Hf. }
      subst y. f_equal. apply IH; [exact Hs2|].
      intros k. specialize (Hf k). simpl in Hf.
      destruct (key x =? k); [now injection Hf | exact Hf].
Qed.

(** Whatever stable ordered arrangement an engine returns for such a
    comparison function, it is the one computed here. *)
Lemma sort_unique (a result : list A) :
  by_key a ->
  StronglySorted (fun u v => key u <= key v) result ->
  (forall k, filter (fun x => key x =? k) result
             = filter (fun x => key x =? k) a) ->
  result = sort a.
Proof.
  intros Hk Hs Hf. apply sorted_stable_eq; [exact Hs | now apply sort_sorted |].
  intros k. now rewrite Hf, sort_stable_key.
Qed.

End SortFacts.

(* ================================================================== *)
(** ** Facts about lists *)

Section ListFacts.
Context {A : Type}.

Lemma filter_perm (p : A -> bool) (l l' : list A) :
  Permutation l l' -> Permutation (filter p l) (filter p l').
Proof.
  induction 1 as [|x l l' _ IH|x y l|l l' l'' _ IH1 _ IH2]; simpl.
  - constructor.
  - destruct (p x); [now constructor | exact IH].
  - destruct (p x), (p y); try apply Permutation_refl. apply perm_swap.
  - eapply perm_trans; eassumption.
Qed.

(** An element of [l] is among its first [n], or these are [n] others. *)
Lemma firstn_In_or_full (n : nat) (l : list A) (x : A) :
  In x l -> In x (firstn n l) \/ List.length (firstn n l) = n.
Proof.
  intros Hx. destruct (Nat.le_gt_cases (List.length l) n) as [Hle|Hgt].
  - left. now rewrite firstn_all2.
  - right. apply firstn_length_le. lia.
Qed.

Lemma firstn_In (n : nat) (l : list A) (x : A) :
  In x (firstn n l) -> In x l.
Proof.
  intros Hx. rewrite <- (firstn_skipn n l). apply in_or_app. now left.
Qed.

Lemma firstn_length_bound (n : nat) (l : list A) :
  (List.length (firstn n l) <= n)%nat.
Proof. rewrite length_firstn. apply Nat.le_min_l. Qed.

Lemma StronglySorted_app_l (R : A -> A -> Prop) (l1 l2 : list A) :
  StronglySorted R (l1 ++ l2) -> StronglySorted R l1.
Proof.
  induction l1 as [|x l1 IH]; simpl; intros H; [constructor|].
  apply StronglySorted_inv in H. destruct H as [Hs Hall].
  constructor; [now apply IH|].
  apply Forall_app in Hall. tauto.
Qed.

Lemma StronglySorted_app_cross (R : A -> A -> Prop) (l1 l2 : list A) :
  StronglySorted R (l1 ++ l2) ->
  forall x y, In x l1 -> In y l2 -> R x y.
Proof.
  induction l1 as [|z l1 IH]; simpl; intros H x y Hx Hy; [contradiction|].
  apply StronglySorted_inv in H. destruct H as [Hs Hall].
  destruct Hx as [<-|Hx].
  - rewrite Forall_forall in Hall. apply Hall, in_or_app. now right.
  - now apply IH.
Qed.

Lemma StronglySorted_firstn (R : A -> A -> Prop) (n : nat) (l : list A) :
  StronglySorted R l -> StronglySorted R (firstn n l).
Proof.
  intros H. rewrite <- (firstn_skipn n l) in H.
  now apply StronglySorted_app_l in H.
Qed.

Lemma StronglySorted_weaken (R R' : A -> A -> Prop) (l : list A) :
  (forall x y, In x l -> In y l -> R x y -> R' x y) ->
  StronglySorted R l -> StronglySorted R' l.
Proof.
  intros HR H. induction H as [|x l Hs IH Hall]; constructor.
  - apply IH. intros u v Hu Hv. apply HR; now right.
  - rewrite Forall_forall in *. intros y Hy.
    apply HR; [now left | now right | now apply Hall].
Qed.

(** In an ordered list, an element that is not among the first [n] has
    [n] elements before it, each related to it. *)
Lemma firstn_In_or_before (R : A -> A -> Prop) (n : nat) (l : list A) (x : A) :
  StronglySorted R l ->
  In x l ->
  In x (firstn n l)
  \/ (List.length (firstn n l) = n /\ Forall (fun h => R h x) (firstn n l)).
Proof.
  intros Hs Hx. rewrite <- (firstn_skipn n l) in Hs, Hx.
  apply in_app_or in Hx. destruct Hx as [Hx|Hx]; [now left|right].
  split.
  - apply firstn_length_le.
    destruct (Nat.le_gt_cases (List.length l) n) as [Hle|Hgt]; [|lia].
    rewrite skipn_all2 in Hx by exact Hle. contradiction.
  - apply Forall_forall. intros h Hh.
    now apply (StronglySorted_app_cross R _ _ Hs).
Qed.

End ListFacts.

(* ================================================================== *)
(** ** Facts about the resolver *)

Section ResolverFacts.

Variable getTime : string -> JS.Number.

(** The two revisions build the same game. *)
Lemma toGame_page_eq (event : Raw.Event) : toGame_page event = toGame event.
Proof. reflexivity. Qed.

Lemma fold_visit (now : Z) (events : list Raw.Event) (acc : Buckets) :
  fold_left (visit getTime now) events acc
  = {| completedGames :=
         completedGames acc ++ filter completed (map toGame events);
       upcomingGames :=
         upcomingGames acc ++ filter (later getTime now) (map toGame events) |}.
Proof.
  revert acc; induction events as [|e events IH]; intros acc.
  - simpl. rewrite !app_nil_r. now destruct acc.
  - cbn [fold_left map filter]. rewrite IH.
    unfold visit, later, timestamp.
    change (date (toGame e)) with (Raw.date e).
    generalize (toGame e) as game; intros game.
    destruct (completed game); cbn [completedGames upcomingGames negb andb].
    + now rewrite <- app_assoc.
    + destruct (JS.gt (getTime (Raw.date e)) (Some now));
        cbn [completedGames upcomingGames];
        [now rewrite <- app_assoc | reflexivity].
Qed.

(** The loop keeps the completed games, and the games that are not
    completed and lie in the future, each in the order of the input. *)
Lemma forEach_completed (now : Z) (events : list Raw.Event) :
  completedGames (forEach getTime now events) = filter completed (map toGame events).
Proof. unfold forEach. now rewrite fold_visit. Qed.

Lemma forEach_upcoming (now : Z) (events : list Raw.Event) :
  upcomingGames (forEach getTime now events) = filter (later getTime now) (map toGame events).
Proof. unfold forEach. now rewrite fold_visit. Qed.

Lemma lastGames_eq (now : Z) (events : list Raw.Event) :
  lastGames (schedule getTime now events)
  = firstn 3 (JS.sort (mostRecentFirst getTime) (filter completed (map toGame events))).
Proof. unfold schedule. simpl. now rewrite forEach_completed. Qed.

Lemma nextGames_eq (now : Z) (events : list Raw.Event) :
  nextGames (schedule getTime now events)
  = firstn 3 (JS.sort (earliestFirst getTime) (filter (later getTime now) (map toGame events))).
Proof. unfold schedule. simpl. now rewrite forEach_upcoming. Qed.

Lemma In_lastGames (now : Z) (events : list Raw.Event) (g : Game) :
  In g (lastGames (schedule getTime now events)) ->
  completed g = true /\ exists e, In e events /\ g = toGame e.
Proof.
  rewrite lastGames_eq. intros H.
  apply firstn_In, sort_In, filter_In in H. destruct H as [H Hc].
  apply in_map_iff in H. destruct H as [e [<- He]]. eauto.
Qed.

Lemma In_nextGames (now : Z) (events : list Raw.Event) (g : Game) :
  In g (nextGames (schedule getTime now events)) ->
  later getTime now g = true /\ exists e, In e events /\ g = toGame e.
Proof.
  rewrite nextGames_eq. intros H.
  apply firstn_In, sort_In, filter_In in H. destruct H as [H Hc].
  apply in_map_iff in H. destruct H as [e [<- He]]. eauto.
Qed.

Lemma later_inv (now : Z) (g : Game) :
  later getTime now g = true ->
  completed g = false /\ exists t, timestamp getTime g = Some t /\ now < t.
Proof.
  unfold later. intros H. apply andb_prop in H. destruct H as [Hc Hg].
  split; [now destruct (completed g)|].
  unfold JS.gt in Hg. destruct (timestamp getTime g) as [t|]; [|discriminate].
  exists t. split; [reflexivity|]. lia.
Qed.

Lemma later_intro (now : Z) (g : Game) (t : Z) :
  completed g = false -> timestamp getTime g = Some t -> now < t ->
  later getTime now g = true.
Proof.
  intros Hc Ht Hlt. unfold later. rewrite Hc, Ht. simpl. lia.
Qed.

(** The two comparison functions are differences of a key as soon as
    the dates parse. *)
Lemma mostRecentFirst_by_key (l : list Game) :
  (forall g, In g l -> timestamp getTime g <> JS.NaN) ->
  by_key (mostRecentFirst getTime) (fun g => - stamp getTime g) l.
Proof.
  intros H x y Hx Hy. unfold mostRecentFirst, stamp.
  pose proof (H x Hx) as Vx. pose proof (H y Hy) as Vy.
  unfold timestamp in *.
  destruct (getTime (date x)); [|now elim Vx].
  destruct (getTime (date y)); [|now elim Vy].
  simpl. f_equal. lia.
Qed.

Lemma earliestFirst_by_key (l : list Game) :
  (forall g, In g l -> timestamp getTime g <> JS.NaN) ->
  by_key (earliestFirst getTime) (stamp getTime) l.
Proof.
  intros H x y Hx Hy. unfold earliestFirst, stamp.
  pose proof (H x Hx) as Vx. pose proof (H y Hy) as Vy.
  unfold timestamp in *.
  destruct (getTime (date x)); [|now elim Vx].
  destruct (getTime (date y)); [|now elim Vy].
  reflexivity.
Qed.

Lemma stamp_timestamp (g : Game) :
  timestamp getTime g <> JS.NaN -> timestamp getTime g = Some (stamp getTime g).
Proof.
  unfold stamp. destruct (timestamp getTime g); [reflexivity | now intros []].
Qed.

Lemma sort_newestFirst (l : list Game) :
  (forall g, In g l -> timestamp getTime g <> JS.NaN) ->
  newestFirst getTime (JS.sort (mostRecentFirst getTime) l).
Proof.
  intros H.
  apply StronglySorted_weaken
    with (R := fun u v => - stamp getTime u <= - stamp getTime v).
  - intros x y Hx Hy Hle. apply sort_In in Hx, Hy.
    exists (stamp getTime x), (stamp getTime y).
    repeat split; try (apply stamp_timestamp; auto). lia.
  - apply sort_sorted, mostRecentFirst_by_key, H.
Qed.

Lemma sort_soonestFirst (l : list Game) :
  (forall g, In g l -> timestamp getTime g <> JS.NaN) ->
  soonestFirst getTime (JS.sort (earliestFirst getTime) l).
Proof.
  intros H.
  apply StronglySorted_weaken with (R := fun u v => stamp getTime u <= stamp getTime v).
  - intros x y Hx Hy Hle. apply sort_In in Hx, Hy.
    exists (stamp getTime x), (stamp getTime y).
    repeat split; try (apply stamp_timestamp; auto). lia.
  - apply sort_sorted, earliestFirst_by_key, H.
Qed.

(** In a list of two games or more that is non-increasing by timestamp
    every date parses. *)
Lemma newestFirst_dated (l : list Game) (g : Game) :
  newestFirst getTime l -> (2 <= List.length l)%nat -> In g l ->
  timestamp getTime g <> JS.NaN.
Proof.
  intros Hs Hlen Hg. destruct l as [|x [|y l]]; simpl in Hlen; try lia.
  apply StronglySorted_inv in Hs. destruct Hs as [_ Hall].
  rewrite Forall_forall in Hall.
  destruct Hg as [<-|Hg].
  - destruct (Hall y (or_introl eq_refl)) as [a [b [Ha _]]].
    rewrite Ha. discriminate.
  - destruct (Hall g Hg) as [a [b [_ [Hb _]]]]. rewrite Hb. discriminate.
Qed.

(** The strong reading of "non-increasing" implies the weak one. *)
Lemma newestFirst_neverRising (l : list Game) :
  newestFirst getTime l -> neverRising getTime l.
Proof.
  apply StronglySorted_weaken. intros a b _ _ [x [y [Ha [Hb Hle]]]].
  unfold timestamp in *.
  rewrite Ha, Hb. unfold JS.lt, JS.gt. lia.
Qed.

End ResolverFacts.

(* ================================================================== *)
(** ** Arrays of pairwise distinct keys *)

Section DistinctKeys.
Context {A : Type}.
Variable comparefn : A -> A -> JS.Number.
Variable key : A -> Z.

Lemma filter_key_strict (k : Z) (l : list A) :
  StronglySorted (fun u v => key u < key v) l ->
  (List.length (filter (fun x => (key x =? k)%Z) l) <= 1)%nat.
Proof.
  induction 1 as [|x l Hs IH Hall]; simpl; [lia|].
  destruct (Z.eqb_spec (key x) k) as [Hk|Hk]; [|exact IH].
  replace (filter (fun z => key z =? k) l) with (@nil A); [simpl; lia|].
  symmetry. clear IH Hs. induction Hall as [|y l Hy Hall IH]; simpl; [reflexivity|].
  destruct (Z.eqb_spec (key y) k); [lia | exact IH].
Qed.

Lemma perm_short_eq (l l' : list A) :
  Permutation l l' -> (List.length l' <= 1)%nat -> l = l'.
Proof.
  intros Hp Hlen. destruct l' as [|x [|y l']]; simpl in Hlen; try lia.
  - now apply Permutation_nil, Permutation_sym.
  - now apply Permutation_length_1_inv, Permutation_sym.
Qed.

(** Sorting any arrangement of elements with pairwise distinct keys
    gives the arrangement in key order. *)
Lemma sort_perm_distinct (a target : list A) :
  Permutation a target ->
  by_key comparefn key a ->
  StronglySorted (fun u v => key u < key v) target ->
  JS.sort comparefn a = target.
Proof.
  intros Hp Hk Hs. symmetry. apply sort_unique with (key := key).
  - exact Hk.
  - apply StronglySorted_weaken with (R := fun u v => key u < key v);
      [intros; lia | exact Hs].
  - intros k. symmetry. apply perm_short_eq.
    + now apply filter_perm.
    + now apply filter_key_strict.
Qed.

End DistinctKeys.

Lemma filter_all {A} (p : A -> bool) (l : list A) :
  (forall x, In x l -> p x = true) -> filter p l = l.
Proof.
  induction l as [|x l IH]; intros H; simpl; [reflexivity|].
  rewrite (H x (or_introl eq_refl)). f_equal. apply IH.
  intros y Hy. apply H. now right.
Qed.

(* ================================================================== *)
(** ** The claims *)

Section Ordering.

Variable getTime : string -> JS.Number.

Lemma completed_toGame (e : Raw.Event) :
  completed (toGame e) = true <-> completedFlag e = Some true.
Proof.
  unfold toGame; simpl. destruct (completedFlag e) as [[|]|]; simpl;
    split; congruence.
Qed.

Lemma nextGames_soonestFirst (now : Z) (events : list Raw.Event) :
  soonestFirst getTime (nextGames (schedule getTime now events)).
Proof.
  rewrite nextGames_eq. apply StronglySorted_firstn, sort_soonestFirst.
  intros g Hg. apply filter_In in Hg. destruct Hg as [_ Hg].
  apply later_inv in Hg. destruct Hg as [_ [t [Ht _]]]. rewrite Ht. discriminate.
Qed.

Lemma lastGames_newestFirst (now : Z) (events : list Raw.Event) :
  (forall e, In e events -> completedFlag e = Some true ->
             getTime (Raw.date e) <> JS.NaN) ->
  newestFirst getTime (lastGames (schedule getTime now events)).
Proof.
  intros Hv. rewrite lastGames_eq. apply StronglySorted_firstn, sort_newestFirst.
  intros g Hg. apply filter_In in Hg. destruct Hg as [Hg Hc].
  apply in_map_iff in Hg. destruct Hg as [e [<- He]].
  apply Hv; [exact He | now apply completed_toGame].
Qed.

Lemma five_days_recent (now T : Z) (e1 e2 e3 e4 e5 : Raw.Event)
    (events : list Raw.Event) :
  Permutation events [e5; e4; e3; e2; e1] ->
  (forall e, In e events -> completedFlag e = Some true) ->
  getTime (Raw.date e1) = Some (T - 1 * JS.msPerDay) ->
  getTime (Raw.date e2) = Some (T - 2 * JS.msPerDay) ->
  getTime (Raw.date e3) = Some (T - 3 * JS.msPerDay) ->
  getTime (Raw.date e4) = Some (T - 4 * JS.msPerDay) ->
  getTime (Raw.date e5) = Some (T - 5 * JS.msPerDay) ->
  lastGames (schedule getTime now events) = [toGame e1; toGame e2; toGame e3].
Proof.
  intros Hp Hc H1 H2 H3 H4 H5. rewrite lastGames_eq.
  rewrite filter_all.
  2:{ intros g Hg. apply in_map_iff in Hg. destruct Hg as [e [<- He]].
      now apply completed_toGame, Hc. }
  assert (Hin : forall g, In g [toGame e1; toGame e2; toGame e3; toGame e4; toGame e5] ->
                          timestamp getTime g <> JS.NaN).
  { intros g Hg. simpl in Hg. unfold timestamp.
    destruct Hg as [<-|[<-|[<-|[<-|[<-|[]]]]]]; simpl; unfold JS.NaN; congruence. }
  rewrite (sort_perm_distinct (mostRecentFirst getTime)
             (fun g => - stamp getTime g) _
             [toGame e1; toGame e2; toGame e3; toGame e4; toGame e5]).
  - reflexivity.
  - apply perm_trans with (map toGame [e5; e4; e3; e2; e1]).
    + now apply Permutation_map.
    + simpl. apply Permutation_sym.
      change (Permutation ([toGame e1; toGame e2; toGame e3; toGame e4; toGame e5])
                (rev [toGame e1; toGame e2; toGame e3; toGame e4; toGame e5])).
      apply Permutation_rev.
  - apply mostRecentFirst_by_key. intros g Hg. apply Hin.
    apply Permutation_in with (l := map toGame events); [|exact Hg].
    apply perm_trans with (map toGame [e5; e4; e3; e2; e1]).
    + now apply Permutation_map.
    + simpl. apply Permutation_sym.
      change (Permutation ([toGame e1; toGame e2; toGame e3; toGame e4; toGame e5])
                (rev [toGame e1; toGame e2; toGame e3; toGame e4; toGame e5])).
      apply Permutation_rev.
  - assert (S1 : stamp getTime (toGame e1) = T - 1 * JS.msPerDay)
      by (unfold stamp, timestamp; simpl; now rewrite H1).
    assert (S2 : stamp getTime (toGame e2) = T - 2 * JS.msPerDay)
      by (unfold stamp, timestamp; simpl; now rewrite H2).
    assert (S3 : stamp getTime (toGame e3) = T - 3 * JS.msPerDay)
      by (unfold stamp, timestamp; simpl; now rewrite H3).
    assert (S4 : stamp getTime (toGame e4) = T - 4 * JS.msPerDay)
      by (unfold stamp, timestamp; simpl; now rewrite H4).
    assert (S5 : stamp getTime (toGame e5) = T - 5 * JS.msPerDay)
      by (unfold stamp, timestamp; simpl; now rewrite H5).
    unfold JS.msPerDay in *.
    repeat (constructor; [|repeat (constructor; try lia)]).
    constructor.
Qed.

(** C1 (as amended).  The upcoming games are in non-decreasing order of
    timestamp and each list holds at most three games, whatever the
    input; the recent games are in non-increasing order of timestamp
    when the date of every completed event parses.  Five completed
    events dated one to five days before an instant [T], given in any
    order, leave exactly those of one, two and three days before [T] as
    the recent games, in that order. *)
Theorem schedule_ordered_and_capped :
  (forall now events,
      soonestFirst getTime (nextGames (schedule getTime now events))
      /\ (List.length (lastGames (schedule getTime now events)) <= 3)%nat
      /\ (List.length (nextGames (schedule getTime now events)) <= 3)%nat
      /\ ((forall e, In e events -> completedFlag e = Some true ->
                     getTime (Raw.date e) <> JS.NaN) ->
          newestFirst getTime (lastGames (schedule getTime now events))))
  /\ (forall now T e1 e2 e3 e4 e5 events,
        Permutation events [e5; e4; e3; e2; e1] ->
        (forall e, In e events -> completedFlag e = Some true) ->
        getTime (Raw.date e1) = Some (T - 1 * JS.msPerDay) ->
        getTime (Raw.date e2) = Some (T - 2 * JS.msPerDay) ->
        getTime (Raw.date e3) = Some (T - 3 * JS.msPerDay) ->
        getTime (Raw.date e4) = Some (T - 4 * JS.msPerDay) ->
        getTime (Raw.date e5) = Some (T - 5 * JS.msPerDay) ->
        lastGames (schedule getTime now events)
        = [toGame e1; toGame e2; toGame e3]).
Proof.
  split.
  - intros now events. split; [apply nextGames_soonestFirst|].
    split; [rewrite lastGames_eq; apply firstn_length_bound|].
    split; [rewrite nextGames_eq; apply firstn_length_bound|].
    apply lastGames_newestFirst.
  - apply five_days_recent.
Qed.

End Ordering.

Lemma schedule_ordered_and_capped_witness :
  newestFirst Sample.getTime
    (lastGames (schedule Sample.getTime Sample.now Sample.fiveDays))
  /\ lastGames (schedule Sample.getTime Sample.now Sample.fiveDays)
     = [toGame Sample.day1; toGame Sample.day2; toGame Sample.day3].
Proof.
  destruct (schedule_ordered_and_capped Sample.getTime) as [general scenario].
  split.
  - apply (general Sample.now Sample.fiveDays).
    intros e He _. simpl in He.
    destruct He as [<-|[<-|[<-|[<-|[<-|[]]]]]]; vm_compute; discriminate.
  - apply (scenario Sample.now Sample.now
             Sample.day1 Sample.day2 Sample.day3 Sample.day4 Sample.day5).
    + apply Permutation_refl.
    + intros e He. simpl in He.
      destruct He as [<-|[<-|[<-|[<-|[<-|[]]]]]]; reflexivity.
    + vm_compute; reflexivity.
    + vm_compute; reflexivity.
    + vm_compute; reflexivity.
    + vm_compute; reflexivity.
    + vm_compute; reflexivity.
Defined.

(** C1 (as stated) fails.  Of three completed events dated 8 September,
    "TBD" and 15 September, in this order, the undated one compares NaN
    with both others, so nothing moves: the recent games come out with
    8 September before 15 September.  And in whatever order an engine
    left these three games, the list would hold a game without timestamp
    and so would not be non-increasing by timestamp. *)
Lemma recent_games_out_of_order :
  map date (lastGames (schedule Sample.getTime Sample.now Sample.undated))
  = ["2024-09-08T17:00Z"; "TBD"; "2024-09-15T17:00Z"]
  /\ map (timestamp Sample.getTime)
       (lastGames (schedule Sample.getTime Sample.now Sample.undated))
     = [Some 1725814800000; JS.NaN; Some 1726419600000]
  /\ ~ neverRising Sample.getTime
         (lastGames (schedule Sample.getTime Sample.now Sample.undated))
  /\ (forall l,
        Permutation l (lastGames (schedule Sample.getTime Sample.now Sample.undated)) ->
        ~ newestFirst Sample.getTime l).
Proof.
  assert (Hfalse : ~ neverRising Sample.getTime
             (lastGames (schedule Sample.getTime Sample.now Sample.undated))).
  { intros H.
    assert (E : lastGames (schedule Sample.getTime Sample.now Sample.undated)
                = map toGame Sample.undated) by (vm_compute; reflexivity).
    unfold neverRising in H. rewrite E in H. simpl map in H.
    apply StronglySorted_inv in H. destruct H as [_ H].
    inversion H as [|? ? _ H']. inversion H' as [|? ? Hlt _].
    vm_compute in Hlt. discriminate. }
  split; [vm_compute; reflexivity|].
  split; [vm_compute; reflexivity|].
  split; [exact Hfalse|].
  intros l Hp H.
  apply (newestFirst_dated Sample.getTime l
           (toGame (Sample.played "502" "TBD")) H).
  - rewrite (Permutation_length Hp). vm_compute. lia.
  - apply Permutation_in with (1 := Permutation_sym Hp).
    vm_compute. tauto.
  - vm_compute. reflexivity.
Qed.

Section Classification.

Variable getTime : string -> JS.Number.

Lemma placement_Recent (now : Z) (g : Game) :
  placement getTime now g = Recent <-> completed g = true.
Proof.
  unfold placement. destruct (completed g); [tauto|].
  destruct (JS.gt (timestamp getTime g) (Some now)); split; discriminate.
Qed.

Lemma placement_Upcoming (now : Z) (g : Game) :
  placement getTime now g = Upcoming <-> later getTime now g = true.
Proof.
  unfold placement, later. destruct (completed g); simpl; [split; discriminate|].
  destruct (JS.gt (timestamp getTime g) (Some now)); split; auto; discriminate.
Qed.

Lemma In_completedGames (now : Z) (events : list Raw.Event) (g : Game) :
  In g (completedGames (forEach getTime now events))
  <-> In g (map toGame events) /\ placement getTime now g = Recent.
Proof.
  rewrite forEach_completed, filter_In, placement_Recent. tauto.
Qed.

Lemma In_upcomingGames (now : Z) (events : list Raw.Event) (g : Game) :
  In g (upcomingGames (forEach getTime now events))
  <-> In g (map toGame events) /\ placement getTime now g = Upcoming.
Proof.
  rewrite forEach_upcoming, filter_In, placement_Upcoming. tauto.
Qed.

Lemma lastGames_incl (now : Z) (events : list Raw.Event) (g : Game) :
  In g (lastGames (schedule getTime now events)) ->
  In g (completedGames (forEach getTime now events)).
Proof.
  unfold schedule, JS.slice0; cbn [lastGames nextGames]. intros H.
  now apply firstn_In, sort_In in H.
Qed.

Lemma nextGames_incl (now : Z) (events : list Raw.Event) (g : Game) :
  In g (nextGames (schedule getTime now events)) ->
  In g (upcomingGames (forEach getTime now events)).
Proof.
  unfold schedule, JS.slice0; cbn [lastGames nextGames]. intros H.
  now apply firstn_In, sort_In in H.
Qed.

Lemma lastGames_capped (now : Z) (events : list Raw.Event) (g : Game) :
  In g (completedGames (forEach getTime now events)) ->
  In g (lastGames (schedule getTime now events))
  \/ List.length (lastGames (schedule getTime now events)) = 3%nat.
Proof.
  unfold schedule, JS.slice0; cbn [lastGames nextGames]. intros H.
  apply firstn_In_or_full. now apply sort_In.
Qed.

Lemma flag_placement (now : Z) (e : Raw.Event) :
  completedFlag e = Some true -> placement getTime now (toGame e) = Recent.
Proof. intros H. now apply placement_Recent, completed_toGame. Qed.

Lemma open_future_placement (now : Z) (e : Raw.Event) :
  completedFlag e <> Some true -> inFuture getTime now e ->
  placement getTime now (toGame e) = Upcoming.
Proof.
  intros Hc [t [Ht Hlt]]. apply placement_Upcoming.
  apply later_intro with (t := t); [|exact Ht|exact Hlt].
  destruct (completed (toGame e)) eqn:E; [|reflexivity].
  now apply completed_toGame in E.
Qed.

Lemma open_past_placement (now : Z) (e : Raw.Event) :
  completedFlag e <> Some true -> ~ inFuture getTime now e ->
  placement getTime now (toGame e) = Neither.
Proof.
  intros Hc Hf. unfold placement.
  destruct (completed (toGame e)) eqn:E; [now apply completed_toGame in E|].
  destruct (JS.gt (timestamp getTime (toGame e)) (Some now)) eqn:G; [|reflexivity].
  exfalso. apply Hf.
  destruct (later_inv getTime now (toGame e)) as [_ [t [Ht Hlt]]].
  - unfold later. now rewrite E, G.
  - now exists t.
Qed.

(** C2.  An event whose completion flag is true gives a game that the
    loop pushes to the completed games, whatever its date; the recent
    games being the first three of these once sorted, the game is among
    them unless three others fill the list.  It is neither pushed to the
    upcoming games nor listed among the next ones. *)
Theorem completed_event_is_recent (now : Z) (events : list Raw.Event)
    (e : Raw.Event) :
  In e events ->
  completedFlag e = Some true ->
  In (toGame e) (completedGames (forEach getTime now events))
  /\ (In (toGame e) (lastGames (schedule getTime now events))
      \/ List.length (lastGames (schedule getTime now events)) = 3%nat)
  /\ ~ In (toGame e) (upcomingGames (forEach getTime now events))
  /\ ~ In (toGame e) (nextGames (schedule getTime now events)).
Proof.
  intros He Hc.
  assert (Hin : In (toGame e) (completedGames (forEach getTime now events))).
  { apply In_completedGames. split; [now apply in_map | now apply flag_placement]. }
  assert (Hout : ~ In (toGame e) (upcomingGames (forEach getTime now events))).
  { intros H. apply In_upcomingGames in H. destruct H as [_ H].
    rewrite (flag_placement now e Hc) in H. discriminate. }
  repeat split; auto.
  - now apply lastGames_capped.
  - intros H. now apply Hout, nextGames_incl.
Qed.

(** C3.  An event whose completion flag is false or absent, at any level
    of the nesting, and whose date parses to an instant strictly after
    [now] gives a game that the loop pushes to the upcoming games; the
    next games being the first three of these once sorted, the game is
    among them unless the list holds three others, none of them later
    than it.  It is neither pushed to the completed games nor listed
    among the recent ones. *)
Theorem open_future_event_is_upcoming (now : Z) (events : list Raw.Event)
    (e : Raw.Event) (t : Z) :
  In e events ->
  completedFlag e = Some false \/ completedFlag e = None ->
  getTime (Raw.date e) = Some t ->
  now < t ->
  In (toGame e) (upcomingGames (forEach getTime now events))
  /\ (In (toGame e) (nextGames (schedule getTime now events))
      \/ (List.length (nextGames (schedule getTime now events)) = 3%nat
          /\ Forall (fun g => exists x, timestamp getTime g = Some x /\ x <= t)
                (nextGames (schedule getTime now events))))
  /\ ~ In (toGame e) (completedGames (forEach getTime now events))
  /\ ~ In (toGame e) (lastGames (schedule getTime now events)).
Proof.
  intros He Hc Ht Hlt.
  assert (Hopen : completedFlag e <> Some true)
    by (destruct Hc as [Hc|Hc]; rewrite Hc; discriminate).
  assert (Hp : placement getTime now (toGame e) = Upcoming)
    by (apply open_future_placement; [exact Hopen | now exists t]).
  assert (Hin : In (toGame e) (upcomingGames (forEach getTime now events))).
  { apply In_upcomingGames. split; [now apply in_map | exact Hp]. }
  assert (Hout : ~ In (toGame e) (completedGames (forEach getTime now events))).
  { intros H. apply In_completedGames in H. destruct H as [_ H].
    rewrite Hp in H. discriminate. }
  repeat split; auto.
  - rewrite nextGames_eq. rewrite forEach_upcoming in Hin.
    destruct (firstn_In_or_before
                (fun a b => exists x y, timestamp getTime a = Some x
                                        /\ timestamp getTime b = Some y /\ x <= y)
                3 (JS.sort (earliestFirst getTime)
                     (filter (later getTime now) (map toGame events)))
                (toGame e)) as [H|[Hlen Hall]].
    + apply sort_soonestFirst. intros g Hg. apply filter_In in Hg.
      destruct Hg as [_ Hg]. apply later_inv in Hg.
      destruct Hg as [_ [x [Hx _]]]. rewrite Hx. discriminate.
    + now apply sort_In.
    + now left.
    + right. split; [exact Hlen|].
      eapply Forall_impl; [|exact Hall]. intros g [x [y [Hx [Hy Hle]]]].
      exists x. split; [exact Hx|].
      unfold timestamp in Hy. simpl in Hy. congruence.
  - intros H. now apply Hout, lastGames_incl.
Qed.

(** C4.  The loop sends the game of every event to the completed games,
    to the upcoming games or to neither, as [placement] says and never
    to two of them; the two lists of the result are drawn from the
    completed and from the upcoming games, so no game is in both.  An
    event that is not flagged completed and whose date is not a future
    instant, or does not parse, is sent to neither and appears in neither
    list. *)
Theorem game_in_one_place (now : Z) (events : list Raw.Event) :
  (forall e, In e events ->
     (placement getTime now (toGame e) = Recent
      <-> In (toGame e) (completedGames (forEach getTime now events)))
     /\ (placement getTime now (toGame e) = Upcoming
         <-> In (toGame e) (upcomingGames (forEach getTime now events)))
     /\ (placement getTime now (toGame e) = Neither
         <-> ~ In (toGame e) (completedGames (forEach getTime now events))
             /\ ~ In (toGame e) (upcomingGames (forEach getTime now events))))
  /\ (forall g, In g (lastGames (schedule getTime now events)) ->
                placement getTime now g = Recent)
  /\ (forall g, In g (nextGames (schedule getTime now events)) ->
                placement getTime now g = Upcoming)
  /\ (forall g, ~ (In g (lastGames (schedule getTime now events))
                   /\ In g (nextGames (schedule getTime now events))))
  /\ (forall e, In e events ->
        completedFlag e <> Some true ->
        ~ inFuture getTime now e ->
        placement getTime now (toGame e) = Neither
        /\ ~ In (toGame e) (lastGames (schedule getTime now events))
        /\ ~ In (toGame e) (nextGames (schedule getTime now events))).
Proof.
  assert (Hl : forall g, In g (lastGames (schedule getTime now events)) ->
                         placement getTime now g = Recent).
  { intros g H. apply lastGames_incl, In_completedGames in H. tauto. }
  assert (Hn : forall g, In g (nextGames (schedule getTime now events)) ->
                         placement getTime now g = Upcoming).
  { intros g H. apply nextGames_incl, In_upcomingGames in H. tauto. }
  split; [|split; [exact Hl|split; [exact Hn|split]]].
  - intros e He. pose proof (in_map toGame _ _ He) as Hg.
    rewrite In_completedGames, In_upcomingGames.
    destruct (placement getTime now (toGame e));
      repeat split; try tauto; try discriminate;
      try (intros [_ Hd]; discriminate Hd);
      try (intros [Hd1 Hd2]; exfalso; tauto).
  - intros g [H1 H2]. apply Hl in H1. apply Hn in H2. congruence.
  - intros e He Hc Hf.
    pose proof (open_past_placement now e Hc Hf) as Hp.
    split; [exact Hp|]. split; intros H.
    + apply Hl in H. congruence.
    + apply Hn in H. congruence.
Qed.

End Classification.

Lemma completed_event_is_recent_witness :
  In (toGame Sample.patchy)
     (completedGames (forEach Sample.getTime Sample.now Sample.week))
  /\ (In (toGame Sample.patchy)
         (lastGames (schedule Sample.getTime Sample.now Sample.week))
      \/ List.length (lastGames (schedule Sample.getTime Sample.now Sample.week))
         = 3%nat)
  /\ ~ In (toGame Sample.patchy)
         (upcomingGames (forEach Sample.getTime Sample.now Sample.week))
  /\ ~ In (toGame Sample.patchy)
         (nextGames (schedule Sample.getTime Sample.now Sample.week)).
Proof.
  apply (completed_event_is_recent Sample.getTime Sample.now Sample.week
           Sample.patchy).
  - simpl. tauto.
  - reflexivity.
Defined.

Lemma open_future_event_is_upcoming_witness :
  In (toGame Sample.opener)
     (upcomingGames (forEach Sample.getTime Sample.now Sample.week))
  /\ (In (toGame Sample.opener)
         (nextGames (schedule Sample.getTime Sample.now Sample.week))
      \/ (List.length (nextGames (schedule Sample.getTime Sample.now Sample.week))
          = 3%nat
          /\ Forall (fun g => exists x, timestamp Sample.getTime g = Some x
                                        /\ x <= 1728234000000)
                (nextGames (schedule Sample.getTime Sample.now Sample.week))))
  /\ ~ In (toGame Sample.opener)
         (completedGames (forEach Sample.getTime Sample.now Sample.week))
  /\ ~ In (toGame Sample.opener)
         (lastGames (schedule Sample.getTime Sample.now Sample.week)).
Proof.
  apply (open_future_event_is_upcoming Sample.getTime Sample.now Sample.week
           Sample.opener 1728234000000).
  - simpl. tauto.
  - right. reflexivity.
  - vm_compute. reflexivity.
  - vm_compute. reflexivity.
Defined.

Lemma game_in_one_place_witness :
  placement Sample.getTime Sample.now (toGame Sample.live) = Neither
  /\ ~ In (toGame Sample.live)
         (lastGames (schedule Sample.getTime Sample.now Sample.week))
  /\ ~ In (toGame Sample.live)
         (nextGames (schedule Sample.getTime Sample.now Sample.week)).
Proof.
  apply (game_in_one_place Sample.getTime Sample.now Sample.week).
  - simpl. tauto.
  - vm_compute. discriminate.
  - intros [t [Ht Hlt]]. vm_compute in Ht.
    injection Ht as <-. vm_compute in Hlt. discriminate.
Defined.

(* ================================================================== *)
(** ** Failure and success of the request *)

Lemma append_empty (s : string) : String.append s "" = s.
Proof. induction s as [|c s IH]; simpl; [reflexivity | now rewrite IH]. Qed.

Section Settling.

Variable getTime : string -> JS.Number.
Variable fetch : string -> Except Response.

(** Whatever the request does, the state ends with a schedule and no
    message, or with a message and the schedule it had before. *)
Lemma fetchTeamSchedule_settles (now : Z) (teamId : string) (st : State) :
  let st' := fetchTeamSchedule getTime fetch now teamId st in
  scheduleLoading st' = false
  /\ match resolveSchedule getTime fetch now teamId with
     | inr s => teamSchedule st' = Some s /\ scheduleError st' = None
     | inl err => teamSchedule st' = teamSchedule st
                  /\ scheduleError st' = Some (failureMessage err)
     end.
Proof.
  unfold fetchTeamSchedule.
  destruct (resolveSchedule getTime fetch now teamId); simpl; auto.
Qed.

Lemma handleTeamClick_settles (now : Z) (t : Team.t) (st : State) :
  let st' := handleTeamClick getTime fetch now t st in
  scheduleLoading st' = false
  /\ selectedTeam st' = Some t
  /\ match resolveSchedule getTime fetch now (Team.id t) with
     | inr s => teamSchedule st' = Some s /\ scheduleError st' = None
     | inl err => teamSchedule st' = None
                  /\ scheduleError st' = Some (failureMessage err)
     end.
Proof.
  unfold handleTeamClick, fetchTeamSchedule.
  destruct (resolveSchedule getTime fetch now (Team.id t)); simpl; auto.
Qed.

(** C5.  When the endpoint answers with a status outside 200 to 299, the
    [try] block throws an [Error] whose message is "HTTP error! status: "
    followed by the status in decimal, for 404 "HTTP error! status: 404".
    The click then ends with that message as the schedule error and no
    schedule, and the modal shows the message and no game;
    [fetchTeamSchedule] itself leaves the schedule as it was.
    More generally every failure of the block, whatever its cause, ends
    the click with one message and no schedule. *)
Theorem http_failure_aborts (now : Z) (t : Team.t) (st : State) :
  (forall response,
      fetch (scheduleUrl (Team.id t)) = inr response ->
      ok response = false ->
      let message :=
        String.append "HTTP error! status: " (JS.toString (status response)) in
      resolveSchedule getTime fetch now (Team.id t) = inl (ErrorObject message)
      /\ contains message (JS.toString (status response))
      /\ (status response = 404%nat -> message = "HTTP error! status: 404")
      /\ scheduleError (handleTeamClick getTime fetch now t st) = Some message
      /\ teamSchedule (handleTeamClick getTime fetch now t st) = None
      /\ teamSchedule (fetchTeamSchedule getTime fetch now (Team.id t) st)
         = teamSchedule st
      /\ View.modal (handleTeamClick getTime fetch now t st)
         = Some {| View.loadingPanel := false;
                   View.errorPanel := Some message;
                   View.schedulePanel := None |})
  /\ (forall err,
        resolveSchedule getTime fetch now (Team.id t) = inl err ->
        scheduleError (handleTeamClick getTime fetch now t st)
        = Some (failureMessage err)
        /\ teamSchedule (handleTeamClick getTime fetch now t st) = None).
Proof.
  split.
  - intros response Hf Hok message.
    assert (Hr : resolveSchedule getTime fetch now (Team.id t)
                 = inl (ErrorObject message)).
    { unfold resolveSchedule. rewrite Hf. simpl. now rewrite Hok. }
    split; [exact Hr|].
    split; [exists "HTTP error! status: ", ""; now rewrite append_empty|].
    split; [intros E; unfold message; now rewrite E|].
    destruct (handleTeamClick_settles now t st) as [_ [_ Hc]].
    destruct (fetchTeamSchedule_settles now (Team.id t) st) as [_ Hs].
    destruct (handleTeamClick_settles now t st) as [Hl [Hsel _]].
    rewrite Hr in Hc, Hs. destruct Hc as [Hc1 Hc2]. destruct Hs as [Hs1 _].
    repeat split; try assumption.
    unfold View.modal, View.modalBody. rewrite Hsel, Hl, Hc1, Hc2.
    reflexivity.
  - intros err Hr.
    destruct (handleTeamClick_settles now t st) as [_ [_ Hc]].
    rewrite Hr in Hc. destruct Hc as [Hc1 Hc2]. split; assumption.
Qed.

(** C6.  When the endpoint answers with a success status and a body that
    parses but has no event list, or an empty one, the [try] block
    returns a schedule with no recent and no next game, and the click
    ends with that schedule and no error: the modal shows the two empty
    lists and no error panel. *)
Theorem no_events_is_empty_schedule (now : Z) (t : Team.t) (st : State)
    (response : Response) (data : Raw.ScheduleResponse) :
  fetch (scheduleUrl (Team.id t)) = inr response ->
  ok response = true ->
  json response = inr data ->
  Raw.events data = None \/ Raw.events data = Some [] ->
  resolveSchedule getTime fetch now (Team.id t)
  = inr {| lastGames := []; nextGames := [] |}
  /\ teamSchedule (handleTeamClick getTime fetch now t st)
     = Some {| lastGames := []; nextGames := [] |}
  /\ scheduleError (handleTeamClick getTime fetch now t st) = None
  /\ scheduleLoading (handleTeamClick getTime fetch now t st) = false
  /\ View.modal (handleTeamClick getTime fetch now t st)
     = Some {| View.loadingPanel := false;
               View.errorPanel := None;
               View.schedulePanel := Some ([], []) |}.
Proof.
  intros Hf Hok Hj He.
  assert (Hr : resolveSchedule getTime fetch now (Team.id t)
               = inr {| lastGames := []; nextGames := [] |}).
  { unfold resolveSchedule. rewrite Hf. simpl. rewrite Hok, Hj. simpl.
    destruct He as [-> | ->]; reflexivity. }
  destruct (handleTeamClick_settles now t st) as [Hl [Hsel Hc]].
  rewrite Hr in Hc. destruct Hc as [Hc1 Hc2]. repeat split; try assumption.
  unfold View.modal, View.modalBody. rewrite Hsel, Hl, Hc1, Hc2. reflexivity.
Qed.

End Settling.

Lemma http_failure_aborts_witness :
  resolveSchedule Sample.getTime Sample.network Sample.now "0"
  = inl (ErrorObject "HTTP error! status: 404")
  /\ scheduleError
       (handleTeamClick Sample.getTime Sample.network Sample.now Sample.nobody
          initialState)
     = Some "HTTP error! status: 404"
  /\ teamSchedule
       (handleTeamClick Sample.getTime Sample.network Sample.now Sample.nobody
          initialState)
     = None.
Proof.
  destruct (http_failure_aborts Sample.getTime Sample.network Sample.now
              Sample.nobody initialState) as [http _].
  destruct (http {| status := 404; json := inl (ErrorObject "Unexpected token") |})
    as [H1 [_ [_ [H2 [H3 _]]]]].
  - vm_compute. reflexivity.
  - reflexivity.
  - repeat split; assumption.
Defined.

Lemma no_events_is_empty_schedule_witness :
  resolveSchedule Sample.getTime Sample.network Sample.now "34"
  = inr {| lastGames := []; nextGames := [] |}
  /\ teamSchedule
       (handleTeamClick Sample.getTime Sample.network Sample.now Sample.houston
          initialState)
     = Some {| lastGames := []; nextGames := [] |}
  /\ scheduleError
       (handleTeamClick Sample.getTime Sample.network Sample.now Sample.houston
          initialState)
     = None
  /\ scheduleLoading
       (handleTeamClick Sample.getTime Sample.network Sample.now Sample.houston
          initialState)
     = false
  /\ View.modal
       (handleTeamClick Sample.getTime Sample.network Sample.now Sample.houston
          initialState)
     = Some {| View.loadingPanel := false;
               View.errorPanel := None;
               View.schedulePanel := Some ([], []) |}.
Proof.
  apply (no_events_is_empty_schedule Sample.getTime Sample.network Sample.now
           Sample.houston initialState
           {| status := 200; json := inr {| Raw.events := None |} |}
           {| Raw.events := None |}).
  - vm_compute. reflexivity.
  - reflexivity.
  - reflexivity.
  - left. reflexivity.
Defined.

(* ================================================================== *)
(** ** The sides of a game *)

Lemma findCompetitor_None (side : string) (e : Raw.Event) :
  findCompetitor side e = None <-> sideMissing side e.
Proof.
  unfold findCompetitor, sideMissing, participants.
  destruct (Raw.competitions e) as [|first rest].
  - split; [intros _ c [] | reflexivity].
  - destruct (Raw.competitors first) as [cs|]; simpl.
    + split.
      * intros H c Hc Hside.
        pose proof (find_none _ _ H c Hc) as Hn. simpl in Hn.
        apply String.eqb_neq in Hn. contradiction.
      * intros H.
        destruct (find (fun c => String.eqb (Raw.homeAway c) side) cs)
          as [c|] eqn:F; [|reflexivity].
        apply find_some in F. destruct F as [Hc Hside].
        apply String.eqb_eq in Hside. now elim (H c Hc).
    + split; [intros _ c [] | reflexivity].
Qed.

Lemma findCompetitor_Some (side : string) (e : Raw.Event) (c : Raw.Competitor) :
  findCompetitor side e = Some c ->
  In c (participants e) /\ Raw.homeAway c = side.
Proof.
  unfold findCompetitor, participants.
  destruct (Raw.competitions e) as [|first rest]; [discriminate|].
  destruct (Raw.competitors first) as [cs|]; [|discriminate].
  intros F. apply find_some in F. destruct F as [Hc Hside].
  apply String.eqb_eq in Hside. now split.
Qed.

Lemma or_string_fieldFrom (v : option string) (fallback : string) :
  fieldFrom v fallback (JS.or_string v fallback).
Proof.
  unfold fieldFrom, blank, JS.or_string. split.
  - intros [-> | ->]; reflexivity.
  - intros s -> Hs. apply String.eqb_neq in Hs. now rewrite Hs.
Qed.

(** Every game of the result is the game built from one of the events,
    as built: sorting and slicing move games, they do not change them. *)
Lemma schedule_games_from_events (getTime : string -> JS.Number) (now : Z)
    (events : list Raw.Event) (g : Game) :
  In g (lastGames (schedule getTime now events))
  \/ In g (nextGames (schedule getTime now events)) ->
  exists e, In e events /\ g = toGame e.
Proof.
  intros [H|H]; [apply In_lastGames in H | apply In_nextGames in H]; tauto.
Qed.

(** C7.  When no participant of the first competition carries the tag
    "home" (there is no competition, it has no competitor list, or no
    competitor is tagged so), the home side of the game has display name
    "TBD", abbreviation "TBD", the empty logo and no score; likewise for
    "away" and the away side. *)
Theorem missing_side_is_TBD (e : Raw.Event) :
  (sideMissing "home" e ->
   displayName (team (homeTeam (toGame e))) = "TBD"
   /\ abbreviation (team (homeTeam (toGame e))) = "TBD"
   /\ logo (team (homeTeam (toGame e))) = ""
   /\ score (homeTeam (toGame e)) = None)
  /\ (sideMissing "away" e ->
      displayName (team (awayTeam (toGame e))) = "TBD"
      /\ abbreviation (team (awayTeam (toGame e))) = "TBD"
      /\ logo (team (awayTeam (toGame e))) = ""
      /\ score (awayTeam (toGame e)) = None).
Proof.
  split; intros H; apply findCompetitor_None in H;
    unfold toGame; simpl; rewrite H; simpl; repeat split.
Qed.

Lemma missing_side_is_TBD_witness :
  displayName (team (homeTeam (toGame Sample.opener))) = "TBD"
  /\ abbreviation (team (homeTeam (toGame Sample.opener))) = "TBD"
  /\ logo (team (homeTeam (toGame Sample.opener))) = ""
  /\ score (homeTeam (toGame Sample.opener)) = None.
Proof.
  apply (proj1 (missing_side_is_TBD Sample.opener)).
  intros c Hc. simpl in Hc. contradiction.
Defined.

(** C8.  When the participant found for a side has no score, the score
    of that side of the game is absent; the card of the game prints "0"
    in its place, and the game stays as it is: what the result holds are
    the games as built from the events. *)
Theorem missing_score_stays_absent :
  (forall e c,
      findCompetitor "home" e = Some c -> Raw.score c = None ->
      score (homeTeam (toGame e)) = None
      /\ score (homeTeam (toGame e)) <> Some "0"
      /\ View.homeScore (View.recentCard (toGame e)) = "0")
  /\ (forall e c,
        findCompetitor "away" e = Some c -> Raw.score c = None ->
        score (awayTeam (toGame e)) = None
        /\ score (awayTeam (toGame e)) <> Some "0"
        /\ View.awayScore (View.recentCard (toGame e)) = "0")
  /\ (forall getTime now events g,
        In g (lastGames (schedule getTime now events))
        \/ In g (nextGames (schedule getTime now events)) ->
        exists e, In e events /\ g = toGame e).
Proof.
  split; [|split].
  - intros e c Hf Hs. unfold View.recentCard, toGame; simpl.
    rewrite Hf; simpl. rewrite Hs. repeat split. discriminate.
  - intros e c Hf Hs. unfold View.recentCard, toGame; simpl.
    rewrite Hf; simpl. rewrite Hs. repeat split. discriminate.
  - apply schedule_games_from_events.
Qed.

Lemma missing_score_stays_absent_witness :
  score (homeTeam (toGame Sample.patchy)) = None
  /\ score (homeTeam (toGame Sample.patchy)) <> Some "0"
  /\ View.homeScore (View.recentCard (toGame Sample.patchy)) = "0".
Proof.
  apply (proj1 missing_score_stays_absent Sample.patchy
           (Sample.competitor "home" Sample.chiefs None)).
  - reflexivity.
  - reflexivity.
Defined.

(** C10.  When the participant found for a side has a team, each of the
    three fields of the team is taken from it unless that field is
    absent or the empty string, in which case that field alone becomes
    "TBD" (the empty string for the logo); the score is the
    participant's.  When the participant has no team, the three fields
    take their fallbacks and the score is still the participant's. *)
Theorem defaults_apply_per_field (e : Raw.Event) (c : Raw.Competitor) :
  (findCompetitor "home" e = Some c ->
   (forall t, Raw.team c = Some t -> perField c t (homeTeam (toGame e)))
   /\ (Raw.team c = None ->
       homeTeam (toGame e) = {| team := TBD; score := Raw.score c |}))
  /\ (findCompetitor "away" e = Some c ->
      (forall t, Raw.team c = Some t -> perField c t (awayTeam (toGame e)))
      /\ (Raw.team c = None ->
          awayTeam (toGame e) = {| team := TBD; score := Raw.score c |})).
Proof.
  split; intros Hf; (split; [intros t Ht | intros Ht]);
    unfold toGame, perField; simpl; rewrite Hf; unfold sideOf; simpl;
    rewrite Ht; simpl;
    try reflexivity;
    repeat split; try apply or_string_fieldFrom.
Qed.

Lemma defaults_apply_per_field_witness :
  perField
    (Sample.competitor "away"
       {| Raw.displayName := Some "";
          Raw.abbreviation := Some "BAL";
          Raw.logo := None |}
       (Some "20"))
    {| Raw.displayName := Some "";
       Raw.abbreviation := Some "BAL";
       Raw.logo := None |}
    (awayTeam (toGame Sample.patchy)).
Proof.
  apply (proj2 (defaults_apply_per_field Sample.patchy
                  (Sample.competitor "away"
                     {| Raw.displayName := Some "";
                        Raw.abbreviation := Some "BAL";
                        Raw.logo := None |}
                     (Some "20")))).
  - reflexivity.
  - reflexivity.
Defined.

Example patchy_away_side :
  awayTeam (toGame Sample.patchy)
  = {| team := {| displayName := "TBD"; abbreviation := "BAL"; logo := "" |};
       score := Some "20" |}.
Proof. reflexivity. Qed.

(* ================================================================== *)
(** ** Reproducibility *)

Lemma sameNumber_eq (a b : JS.Number) : sameNumber a b = true -> a = b.
Proof.
  destruct a as [x|], b as [y|]; simpl; try discriminate; [|reflexivity].
  intros H. apply Z.eqb_eq in H. now subst.
Qed.

Section Reproducibility.

Variable getTime : string -> JS.Number.

(** A group of games of one timestamp leaves the sort in the order it
    entered, then loses its tail to the cut. *)
Lemma cut_keeps_order (comparefn : Game -> Game -> JS.Number)
    (tau : JS.Number) (l : list Game) :
  (forall x y, timestamp getTime x = tau -> timestamp getTime y = tau ->
               JS.SortCompare comparefn x y = 0) ->
  exists rest,
    filter (fun g => sameNumber (timestamp getTime g) tau) l
    = filter (fun g => sameNumber (timestamp getTime g) tau)
        (JS.slice0 3 (JS.sort comparefn l)) ++ rest.
Proof.
  intros H.
  exists (filter (fun g => sameNumber (timestamp getTime g) tau)
            (skipn 3 (JS.sort comparefn l))).
  unfold JS.slice0. rewrite <- filter_app, firstn_skipn.
  symmetry. apply sort_stable. intros x y _ _ Hx Hy.
  apply sameNumber_eq in Hx, Hy. rewrite (H x y Hx Hy). lia.
Qed.

Lemma mostRecentFirst_same (tau : JS.Number) (x y : Game) :
  timestamp getTime x = tau -> timestamp getTime y = tau ->
  JS.SortCompare (mostRecentFirst getTime) x y = 0.
Proof.
  unfold JS.SortCompare, mostRecentFirst, timestamp. intros -> ->.
  destruct tau; simpl; [lia | reflexivity].
Qed.

Lemma earliestFirst_same (tau : JS.Number) (x y : Game) :
  timestamp getTime x = tau -> timestamp getTime y = tau ->
  JS.SortCompare (earliestFirst getTime) x y = 0.
Proof.
  unfold JS.SortCompare, earliestFirst, timestamp. intros -> ->.
  destruct tau; simpl; [lia | reflexivity].
Qed.

Lemma resolveSchedule_success (fetch : string -> Except Response) (now : Z)
    (teamId : string) (response : Response) (data : Raw.ScheduleResponse) :
  fetch (scheduleUrl teamId) = inr response ->
  ok response = true ->
  json response = inr data ->
  resolveSchedule getTime fetch now teamId
  = inr (schedule getTime now (JS.or_empty (Raw.events data))).
Proof.
  intros F O J. unfold resolveSchedule. rewrite F. simpl.
  rewrite O, J. reflexivity.
Qed.

(** The sort of a conforming engine is the sort of the model whenever
    the comparison function is the difference of a key. *)
Lemma conforming_sort
    (engine : (Game -> Game -> JS.Number) -> list Game -> list Game)
    (comparefn : Game -> Game -> JS.Number) (key : Game -> Z) (a : list Game) :
  conforming engine -> by_key comparefn key a ->
  engine comparefn a = JS.sort comparefn a.
Proof.
  intros Hc Hk. destruct (Hc comparefn key a Hk) as [Hs Hf].
  now apply sort_unique with (key := key).
Qed.

Lemma scheduleWith_nextGames
    (engine : (Game -> Game -> JS.Number) -> list Game -> list Game)
    (now : Z) (events : list Raw.Event) :
  conforming engine ->
  nextGames (scheduleWith engine getTime now events)
  = nextGames (schedule getTime now events).
Proof.
  intros Hc. unfold scheduleWith, schedule; cbn [nextGames]. f_equal.
  apply conforming_sort with (key := stamp getTime); [exact Hc|].
  apply earliestFirst_by_key. intros g Hg.
  rewrite forEach_upcoming in Hg. apply filter_In in Hg.
  destruct Hg as [_ Hg]. apply later_inv in Hg.
  destruct Hg as [_ [t [Ht _]]]. rewrite Ht. discriminate.
Qed.

Lemma scheduleWith_lastGames
    (engine : (Game -> Game -> JS.Number) -> list Game -> list Game)
    (now : Z) (events : list Raw.Event) :
  conforming engine ->
  (forall e, In e events -> completedFlag e = Some true ->
             getTime (Raw.date e) <> JS.NaN) ->
  lastGames (scheduleWith engine getTime now events)
  = lastGames (schedule getTime now events).
Proof.
  intros Hc Hv. unfold scheduleWith, schedule; cbn [lastGames]. f_equal.
  apply conforming_sort with (key := fun g => - stamp getTime g); [exact Hc|].
  apply mostRecentFirst_by_key. intros g Hg.
  rewrite forEach_completed in Hg. apply filter_In in Hg.
  destruct Hg as [Hg Hgc]. apply in_map_iff in Hg.
  destruct Hg as [e [<- He]]. apply Hv; [exact He|].
  now apply completed_toGame.
Qed.

(** C9 (as amended).  Whatever engine sorts, provided it sorts as the
    language asks for a consistent comparison function, the next games
    are the same, and the games of one timestamp among them are, in the
    order of the input, the first upcoming games of that timestamp.
    When the date of every completed event parses the same holds of the
    recent games and the completed ones.  On one engine the schedule
    stored by a run depends on the event list and on the instant alone,
    whatever the team asked for, the network around it and the state
    before. *)
Theorem ordering_is_reproducible_and_stable
    (engine1 engine2 : (Game -> Game -> JS.Number) -> list Game -> list Game)
    (now : Z) (events : list Raw.Event) :
  conforming engine1 ->
  conforming engine2 ->
  (nextGames (scheduleWith engine1 getTime now events)
   = nextGames (scheduleWith engine2 getTime now events)
   /\ forall tau,
        exists rest,
          filter (fun g => sameNumber (timestamp getTime g) tau)
            (filter (later getTime now) (map toGame events))
          = filter (fun g => sameNumber (timestamp getTime g) tau)
              (nextGames (scheduleWith engine1 getTime now events)) ++ rest)
  /\ ((forall e, In e events -> completedFlag e = Some true ->
                 getTime (Raw.date e) <> JS.NaN) ->
      lastGames (scheduleWith engine1 getTime now events)
      = lastGames (scheduleWith engine2 getTime now events)
      /\ forall tau,
           exists rest,
             filter (fun g => sameNumber (timestamp getTime g) tau)
               (filter completed (map toGame events))
             = filter (fun g => sameNumber (timestamp getTime g) tau)
                 (lastGames (scheduleWith engine1 getTime now events)) ++ rest)
  /\ (forall fetch1 fetch2 id1 id2 st1 st2 r1 r2 d1 d2,
        fetch1 (scheduleUrl id1) = inr r1 -> ok r1 = true -> json r1 = inr d1 ->
        fetch2 (scheduleUrl id2) = inr r2 -> ok r2 = true -> json r2 = inr d2 ->
        JS.or_empty (Raw.events d1) = events ->
        JS.or_empty (Raw.events d2) = events ->
        teamSchedule (fetchTeamSchedule getTime fetch1 now id1 st1)
        = teamSchedule (fetchTeamSchedule getTime fetch2 now id2 st2)).
Proof.
  intros H1 H2. split; [|split].
  - rewrite !scheduleWith_nextGames by assumption. split; [reflexivity|].
    intros tau. unfold schedule; cbn [nextGames]. rewrite forEach_upcoming.
    apply cut_keeps_order. apply earliestFirst_same.
  - intros Hv. rewrite !scheduleWith_lastGames by assumption.
    split; [reflexivity|].
    intros tau. unfold schedule; cbn [lastGames]. rewrite forEach_completed.
    apply cut_keeps_order. apply mostRecentFirst_same.
  - intros fetch1 fetch2 id1 id2 st1 st2 r1 r2 d1 d2 F1 O1 J1 F2 O2 J2 E1 E2.
    destruct (fetchTeamSchedule_settles getTime fetch1 now id1 st1) as [_ Ha].
    destruct (fetchTeamSchedule_settles getTime fetch2 now id2 st2) as [_ Hb].
    rewrite (resolveSchedule_success fetch1 now id1 r1 d1 F1 O1 J1) in Ha.
    rewrite (resolveSchedule_success fetch2 now id2 r2 d2 F2 O2 J2) in Hb.
    destruct Ha as [Ha _]. destruct Hb as [Hb _]. now rewrite Ha, Hb, E1, E2.
Qed.

End Reproducibility.

(** Two games of one instant keep the order of the input behind the
    later game. *)
Example same_hour_keeps_input_order :
  map id (lastGames (schedule Sample.getTime Sample.now Sample.sameHour))
  = ["703"; "701"; "702"].
Proof. vm_compute. reflexivity. Qed.

Example week_schedule :
  map id (lastGames (schedule Sample.getTime Sample.now Sample.week))
  = ["401"; "402"; "603"]
  /\ map id (nextGames (schedule Sample.getTime Sample.now Sample.week))
     = ["601"].
Proof. vm_compute. split; reflexivity. Qed.

(* ================================================================== *)
(** ** The host model on sample values *)

Example Date_parse_kickoff :
  JS.Date_parse 0 "2024-09-08T17:00Z" = Some 1725814800000.
Proof. reflexivity. Qed.

Example Date_parse_offset :
  JS.Date_parse 0 "2024-02-29T23:59:59.999-05:00" = Some 1709269199999.
Proof. reflexivity. Qed.

Example Date_parse_now :
  JS.Date_parse 0 "2024-10-01T17:00:00.000Z" = Some Sample.now.
Proof. reflexivity. Qed.

Example Date_parse_day_only : JS.Date_parse 0 "1970-01-02" = Some 86400000.
Proof. reflexivity. Qed.

Example Date_parse_placeholder : JS.Date_parse 0 "TBD" = JS.NaN.
Proof. reflexivity. Qed.

Example Date_parse_empty : JS.Date_parse 0 "" = JS.NaN.
Proof. reflexivity. Qed.

Example status_text : JS.toString 404 = "404".
Proof. reflexivity. Qed.

Example sort_numbers :
  JS.sort (fun a b => JS.sub (Some a) (Some b)) [3; 1; 2; 1] = [1; 1; 2; 3].
Proof. reflexivity. Qed.

(* ================================================================== *)
(** ** The team directory and the table *)

Section DirectoryFacts.

Variable undefinedMessage : string -> string.
Variable fetch : string -> Except Api.Response.

Lemma loadTeams_inr (ts : list Team.t) :
  loadTeams undefinedMessage fetch = inr ts <->
  exists response data sport sports league leagues,
    fetch teamsUrl = inr response
    /\ Api.ok response = true
    /\ Api.json response = inr data
    /\ Api.sports data = sport :: sports
    /\ Api.leagues sport = league :: leagues
    /\ ts = map Api.team (Api.teams league).
Proof.
  unfold loadTeams, teamsData. split.
  - destruct (fetch teamsUrl) as [e|response]; simpl; [discriminate|].
    destruct (Api.ok response) eqn:Hok; simpl; [|discriminate].
    destruct (Api.json response) as [e|data] eqn:Hj; simpl; [discriminate|].
    destruct (Api.sports data) as [|sport sports] eqn:Hs; simpl; [discriminate|].
    destruct (Api.leagues sport) as [|league leagues] eqn:Hl; simpl; [discriminate|].
    intros H. injection H as <-.
    exists response, data, sport, sports, league, leagues. repeat split; auto.
  - intros [response [data [sport [sports [league [leagues
             [Hf [Hok [Hj [Hs [Hl ->]]]]]]]]]]].
    rewrite Hf. simpl. rewrite Hok, Hj. simpl. rewrite Hs, Hl. reflexivity.
Qed.

(** X1.  [fetchTeams] always ends with [loading] false.  It stores a team
    list only when the request was answered with a success status, the
    body parsed, and the body has a first sport with a first league: the
    list is then the teams of that league and the error is left as it
    was.  In every other case the teams are left as they were and an
    error message is stored. *)
Theorem fetchTeams_all_or_nothing (d : Directory) :
  loading (fetchTeams undefinedMessage fetch d) = false
  /\ ((exists response data sport sports league leagues,
          fetch teamsUrl = inr response
          /\ Api.ok response = true
          /\ Api.json response = inr data
          /\ Api.sports data = sport :: sports
          /\ Api.leagues sport = league :: leagues
          /\ teams (fetchTeams undefinedMessage fetch d)
             = map Api.team (Api.teams league)
          /\ error (fetchTeams undefinedMessage fetch d) = error d)
      \/ (teams (fetchTeams undefinedMessage fetch d) = teams d
          /\ exists message,
               error (fetchTeams undefinedMessage fetch d) = Some message)).
Proof.
  unfold fetchTeams.
  destruct (loadTeams undefinedMessage fetch) as [err|ts] eqn:H; simpl.
  - split; [reflexivity|]. right. split; [reflexivity|]. eauto.
  - split; [reflexivity|]. left.
    apply loadTeams_inr in H.
    destruct H as [response [data [sport [sports [league [leagues
                     [Hf [Hok [Hj [Hs [Hl ->]]]]]]]]]]].
    exists response, data, sport, sports, league, leagues. repeat split; auto.
Qed.

(** X2.  When the teams endpoint answers with a status outside 200 to
    299, the stored error is "HTTP error! status: " followed by the
    status, the teams are left as they were, and the page shows that
    message in place of the table, whatever the state of the modal. *)
Theorem directory_http_failure (d : Directory) (st : State)
    (response : Api.Response) :
  fetch teamsUrl = inr response ->
  Api.ok response = false ->
  let message :=
    String.append "HTTP error! status: " (JS.toString (Api.status response)) in
  error (fetchTeams undefinedMessage fetch d) = Some message
  /\ teams (fetchTeams undefinedMessage fetch d) = teams d
  /\ Page.render (fetchTeams undefinedMessage fetch d) st
     = Page.ErrorScreen message.
Proof.
  intros Hf Hok message.
  assert (Hl : loadTeams undefinedMessage fetch = inl (ErrorObject message)).
  { unfold loadTeams. rewrite Hf. simpl. now rewrite Hok. }
  unfold fetchTeams, Page.render. rewrite Hl. simpl. repeat split.
Qed.

(** X3.  Of the body only the first league of the first sport is read:
    the stored teams are those of its wrappers, one per wrapper and in
    their order, whatever other sports and leagues the body lists. *)
Theorem directory_reads_first_league (d : Directory) (response : Api.Response)
    (data : Api.APIResponse) (sport : Api.Sport) (sports : list Api.Sport)
    (league : Api.League) (leagues : list Api.League) :
  fetch teamsUrl = inr response ->
  Api.ok response = true ->
  Api.json response = inr data ->
  Api.sports data = sport :: sports ->
  Api.leagues sport = league :: leagues ->
  teams (fetchTeams undefinedMessage fetch d) = map Api.team (Api.teams league)
  /\ List.length (teams (fetchTeams undefinedMessage fetch d))
     = List.length (Api.teams league)
  /\ (forall i w, nth_error (Api.teams league) i = Some w ->
                  nth_error (teams (fetchTeams undefinedMessage fetch d)) i
                  = Some (Api.team w))
  /\ error (fetchTeams undefinedMessage fetch d) = error d.
Proof.
  intros Hf Hok Hj Hs Hl.
  assert (H : loadTeams undefinedMessage fetch
              = inr (map Api.team (Api.teams league))).
  { apply loadTeams_inr.
    exists response, data, sport, sports, league, leagues. repeat split; auto. }
  unfold fetchTeams. rewrite H. simpl. repeat split.
  - apply length_map.
  - intros i w Hw. now apply map_nth_error.
Qed.

(** X4.  A body without any sport, or whose first sport has no league,
    makes the chain of reads throw: the error stored is the engine's
    message for reading "leagues", respectively "teams", from
    [undefined], and the teams are left as they were. *)
Theorem directory_shape_failure (d : Directory) (response : Api.Response)
    (data : Api.APIResponse) :
  fetch teamsUrl = inr response ->
  Api.ok response = true ->
  Api.json response = inr data ->
  (Api.sports data = [] ->
   error (fetchTeams undefinedMessage fetch d) = Some (undefinedMessage "leagues")
   /\ teams (fetchTeams undefinedMessage fetch d) = teams d)
  /\ (forall sport sports,
        Api.sports data = sport :: sports -> Api.leagues sport = [] ->
        error (fetchTeams undefinedMessage fetch d) = Some (undefinedMessage "teams")
        /\ teams (fetchTeams undefinedMessage fetch d) = teams d).
Proof.
  intros Hf Hok Hj. split.
  - intros Hs. unfold fetchTeams, loadTeams, teamsData.
    rewrite Hf. simpl. rewrite Hok, Hj. simpl. rewrite Hs. simpl. auto.
  - intros sport sports Hs Hl. unfold fetchTeams, loadTeams, teamsData.
    rewrite Hf. simpl. rewrite Hok, Hj. simpl. rewrite Hs, Hl. simpl. auto.
Qed.

End DirectoryFacts.

Lemma fetchTeams_all_or_nothing_witness :
  loading (fetchTeams Demo.undefinedMessage Demo.online initialDirectory) = false
  /\ teams (fetchTeams Demo.undefinedMessage Demo.online initialDirectory)
     = [Demo.chiefs; Demo.texans; Demo.ravens].
Proof.
  destruct (fetchTeams_all_or_nothing Demo.undefinedMessage Demo.online
              initialDirectory) as [H _].
  split; [exact H | reflexivity].
Defined.

Lemma directory_http_failure_witness :
  error (fetchTeams Demo.undefinedMessage Demo.unavailable initialDirectory)
  = Some "HTTP error! status: 503"
  /\ teams (fetchTeams Demo.undefinedMessage Demo.unavailable initialDirectory)
     = []
  /\ Page.render
       (fetchTeams Demo.undefinedMessage Demo.unavailable initialDirectory)
       initialState
     = Page.ErrorScreen "HTTP error! status: 503".
Proof.
  apply (directory_http_failure Demo.undefinedMessage Demo.unavailable
           initialDirectory initialState
           {| Api.status := 503;
              Api.json := inl (ErrorObject "Unexpected token") |}).
  - reflexivity.
  - reflexivity.
Defined.

Lemma directory_reads_first_league_witness :
  teams (fetchTeams Demo.undefinedMessage Demo.online initialDirectory)
  = map Api.team (Api.teams Demo.nfl)
  /\ List.length (teams (fetchTeams Demo.undefinedMessage Demo.online initialDirectory))
     = List.length (Api.teams Demo.nfl)
  /\ (forall i w, nth_error (Api.teams Demo.nfl) i = Some w ->
                  nth_error
                    (teams (fetchTeams Demo.undefinedMessage Demo.online
                              initialDirectory)) i
                  = Some (Api.team w))
  /\ error (fetchTeams Demo.undefinedMessage Demo.online initialDirectory) = None.
Proof.
  apply (directory_reads_first_league Demo.undefinedMessage Demo.online
           initialDirectory
           {| Api.status := 200; Api.json := inr Demo.football |}
           Demo.football
           {| Api.leagues := [Demo.nfl; Demo.other] |}
           [ {| Api.leagues := [Demo.other] |} ]
           Demo.nfl [Demo.other]); reflexivity.
Defined.

Lemma directory_shape_failure_witness :
  error (fetchTeams Demo.undefinedMessage Demo.noSports initialDirectory)
  = Some "Cannot read properties of undefined (reading 'leagues')"
  /\ teams (fetchTeams Demo.undefinedMessage Demo.noSports initialDirectory) = [].
Proof.
  apply (proj1 (directory_shape_failure Demo.undefinedMessage Demo.noSports
                  initialDirectory
                  {| Api.status := 200; Api.json := inr {| Api.sports := [] |} |}
                  {| Api.sports := [] |} eq_refl eq_refl eq_refl)).
  reflexivity.
Defined.

Lemma mapFrom_nth_error {A B} (f : A -> nat -> B) (k : nat) (a : list A) (i : nat) :
  nth_error (Page.mapFrom f k a) i
  = option_map (fun x => f x (k + i)%nat) (nth_error a i).
Proof.
  revert k i; induction a as [|x a IH]; intros k i.
  - now destruct i.
  - destruct i as [|i]; simpl.
    + now rewrite Nat.add_0_r.
    + rewrite IH. now rewrite Nat.add_succ_r.
Qed.

Lemma mapFrom_length {A B} (f : A -> nat -> B) (k : nat) (a : list A) :
  List.length (Page.mapFrom f k a) = List.length a.
Proof.
  revert k; induction a as [|x a IH]; intros k; simpl; [reflexivity|].
  now rewrite IH.
Qed.

Lemma rows_onClick (k : nat) (ts : list Team.t) :
  map Page.onClick (Page.mapFrom Page.row k ts) = ts.
Proof.
  revert k; induction ts as [|t ts IH]; intros k; simpl; [reflexivity|].
  now rewrite IH.
Qed.

Lemma parity_flips (i : nat) :
  Nat.eqb (Nat.modulo (S i) 2) 0 = negb (Nat.eqb (Nat.modulo i 2) 0).
Proof.
  pose proof (Nat.div_mod_eq i 2) as Hi.
  pose proof (Nat.div_mod_eq (S i) 2) as Hs.
  pose proof (Nat.mod_upper_bound i 2) as Bi.
  pose proof (Nat.mod_upper_bound (S i) 2) as Bs.
  destruct (Nat.eqb_spec (Nat.modulo (S i) 2) 0) as [E|E];
    destruct (Nat.eqb_spec (Nat.modulo i 2) 0) as [F|F]; simpl;
    try reflexivity; exfalso; lia.
Qed.

(** X5.  The page shows the loading line while [loading] holds, whatever
    else is stored.  After a load that succeeded from the initial state
    it shows the table with one line per stored team, in order: line
    [i] carries the id of team [i] as key and hands team [i] to the
    click handler, and clicking it selects that team.  No modal is
    shown before a click. *)
Theorem table_after_load (undefinedMessage : string -> string)
    (fetchTeamsOf : string -> Except Api.Response)
    (getTime : string -> JS.Number) (fetch : string -> Except Response)
    (ts : list Team.t) :
  loadTeams undefinedMessage fetchTeamsOf = inr ts ->
  (forall st, Page.render initialDirectory st = Page.LoadingScreen)
  /\ Page.render (fetchTeams undefinedMessage fetchTeamsOf initialDirectory)
       initialState
     = Page.TableScreen (Page.rows ts) None
  /\ List.length (Page.rows ts) = List.length ts
  /\ map Page.onClick (Page.rows ts) = ts
  /\ (forall i r now st,
        nth_error (Page.rows ts) i = Some r ->
        nth_error ts i = Some (Page.onClick r)
        /\ Page.key r = Team.id (Page.onClick r)
        /\ selectedTeam (handleTeamClick getTime fetch now (Page.onClick r) st)
           = Some (Page.onClick r)).
Proof.
  intros H. split; [reflexivity|].
  split; [unfold fetchTeams, Page.render; rewrite H; reflexivity|].
  split; [apply mapFrom_length|].
  split; [apply rows_onClick|].
  intros i r now st Hr. unfold Page.rows in Hr.
  rewrite mapFrom_nth_error in Hr.
  destruct (nth_error ts i) as [t|]; [|discriminate].
  injection Hr as <-. split; [reflexivity|]. split; [reflexivity|].
  now destruct (handleTeamClick_settles getTime fetch now
                  (Page.onClick (Page.row t (0 + i))) st) as [_ [Hsel _]].
Qed.

Lemma table_after_load_witness :
  Page.render (fetchTeams Demo.undefinedMessage Demo.online initialDirectory)
    initialState
  = Page.TableScreen (Page.rows [Demo.chiefs; Demo.texans; Demo.ravens]) None
  /\ map Page.onClick (Page.rows [Demo.chiefs; Demo.texans; Demo.ravens])
     = [Demo.chiefs; Demo.texans; Demo.ravens].
Proof.
  destruct (table_after_load Demo.undefinedMessage Demo.online
              Sample.getTime Sample.network
              [Demo.chiefs; Demo.texans; Demo.ravens] eq_refl)
    as [_ [H1 [_ [H2 _]]]].
  split; [exact H1 | exact H2].
Defined.

Lemma parity_even (i : nat) : Nat.eqb (Nat.modulo i 2) 0 = Nat.even i.
Proof.
  induction i as [|i IH]; [reflexivity|].
  rewrite parity_flips, IH, Nat.even_succ, <- Nat.negb_even. reflexivity.
Qed.

Lemma row_className (t : Team.t) (i : nat) :
  Page.className (Page.row t i)
  = (if Nat.even i then "hover:bg-gray-50 bg-white"
     else "hover:bg-gray-50 bg-gray-50").
Proof.
  unfold Page.row; cbn [Page.className]. rewrite parity_even.
  now destruct (Nat.even i).
Qed.

(** X6.  The lines of the table alternate: line [i], counted from 0, is
    white when [i] is even and grey when it is odd, so no two
    neighbouring lines have the same class. *)
Theorem table_lines_alternate (ts : list Team.t) (i : nat) (r : Page.Row) :
  nth_error (Page.rows ts) i = Some r ->
  Page.className r
  = (if Nat.even i then "hover:bg-gray-50 bg-white"
     else "hover:bg-gray-50 bg-gray-50")
  /\ (forall r', nth_error (Page.rows ts) (S i) = Some r' ->
                 Page.className r' <> Page.className r).
Proof.
  intros Hr. unfold Page.rows in *. rewrite mapFrom_nth_error in Hr.
  destruct (nth_error ts i) as [t|]; [|discriminate].
  injection Hr as <-. change (0 + i)%nat with i.
  split; [apply row_className|].
  intros r' Hr'. rewrite mapFrom_nth_error in Hr'.
  destruct (nth_error ts (S i)) as [t'|]; [|discriminate].
  injection Hr' as <-. change (0 + S i)%nat with (S i).
  rewrite !row_className, Nat.even_succ, <- Nat.negb_even.
  destruct (Nat.even i); simpl; discriminate.
Qed.

Lemma table_lines_alternate_witness :
  Page.className (Page.row Demo.texans 1) = "hover:bg-gray-50 bg-gray-50"
  /\ (forall r',
        nth_error (Page.rows [Demo.chiefs; Demo.texans; Demo.ravens]) 2 = Some r' ->
        Page.className r' <> Page.className (Page.row Demo.texans 1)).
Proof.
  apply (table_lines_alternate [Demo.chiefs; Demo.texans; Demo.ravens] 1
           (Page.row Demo.texans 1)).
  reflexivity.
Defined.

(** X7.  The logo of a line, and of the modal's header, is the address
    of the team's first logo; a team without logos, or whose first logo
    has an empty address, gets "/placeholder.svg".  Logos after the
    first are never used. *)
Theorem logo_is_first_or_placeholder (t : Team.t) (index : nat) :
  Page.headerLogo (Page.header t) = Page.logoSrc (Page.row t index)
  /\ (Team.logos t = [] -> Page.logoSrc (Page.row t index) = "/placeholder.svg")
  /\ (forall others, Team.logos t = "" :: others ->
                     Page.logoSrc (Page.row t index) = "/placeholder.svg")
  /\ (forall href others, Team.logos t = href :: others -> href <> "" ->
                          Page.logoSrc (Page.row t index) = href).
Proof.
  unfold Page.header, Page.row, Page.logoOf; simpl.
  split; [reflexivity|]. split; [intros ->; reflexivity|].
  split; [intros others ->; reflexivity|].
  intros href others -> Hne. simpl.
  apply String.eqb_neq in Hne. now rewrite Hne.
Qed.

Lemma logo_is_first_or_placeholder_witness :
  Page.logoSrc (Page.row Demo.texans 1) = "/placeholder.svg"
  /\ Page.logoSrc (Page.row Demo.ravens 2) = "/placeholder.svg"
  /\ Page.logoSrc (Page.row Demo.chiefs 0)
     = "https://a.espncdn.com/i/teamlogos/nfl/500/kc.png".
Proof.
  destruct (logo_is_first_or_placeholder Demo.texans 1) as [_ [H1 _]].
  destruct (logo_is_first_or_placeholder Demo.ravens 2) as [_ [_ [H2 _]]].
  destruct (logo_is_first_or_placeholder Demo.chiefs 0) as [_ [_ [_ H3]]].
  split; [apply H1; reflexivity|].
  split; [apply (H2 []); reflexivity|].
  apply (H3 _ ["https://a.espncdn.com/i/teamlogos/nfl/500-dark/kc.png"]).
  - reflexivity.
  - discriminate.
Defined.

(* ================================================================== *)
(** ** More on the schedule *)

Lemma filter_map_length {A B} (f : A -> B) (p : B -> bool) (l : list A) :
  List.length (filter p (map f l))
  = List.length (filter (fun x => p (f x)) l).
Proof.
  induction l as [|x l IH]; simpl; [reflexivity|].
  destruct (p (f x)); simpl; now rewrite IH.
Qed.

Lemma find_first {A} (p : A -> bool) (l : list A) (x : A) :
  find p l = Some x <->
  exists before after,
    l = before ++ x :: after /\ p x = true
    /\ forall y, In y before -> p y = false.
Proof.
  induction l as [|z l IH]; simpl.
  - split; [discriminate|].
    intros [before [after [H _]]]. now destruct before.
  - destruct (p z) eqn:Hz.
    + split.
      * intros H. injection H as <-. exists [], l. repeat split; auto.
        intros y [].
      * intros [before [after [H [Hx Hb]]]].
        destruct before as [|b before]; simpl in H.
        -- now injection H as ->.
        -- injection H as <- _.
           rewrite (Hb z (or_introl eq_refl)) in Hz. discriminate.
    + rewrite IH. split.
      * intros [before [after [-> [Hx Hb]]]].
        exists (z :: before), after. repeat split; auto.
        intros y [<-|Hy]; auto.
      * intros [before [after [H [Hx Hb]]]].
        destruct before as [|b before]; simpl in H.
        -- injection H as -> _. congruence.
        -- injection H as <- ->. exists before, after. repeat split; auto.
           intros y Hy. apply Hb. now right.
Qed.

Lemma findCompetitor_participants (side : string) (e : Raw.Event) :
  findCompetitor side e
  = find (fun c => String.eqb (Raw.homeAway c) side) (participants e).
Proof.
  unfold findCompetitor, participants.
  destruct (Raw.competitions e) as [|first rest]; [reflexivity|].
  now destruct (Raw.competitors first).
Qed.

Section ScheduleFacts.

Variable getTime : string -> JS.Number.

(** X8.  The recent games are as many as the events flagged completed,
    up to three, and the next games as many as the events that are not
    completed and dated after [now], up to three: a list is shorter
    than three only when there are no more such events. *)
Theorem lists_are_full_when_possible (now : Z) (events : list Raw.Event) :
  List.length (lastGames (schedule getTime now events))
  = Nat.min 3
      (List.length (filter (fun e => JS.or_false (completedFlag e)) events))
  /\ List.length (nextGames (schedule getTime now events))
     = Nat.min 3
         (List.length
            (filter (fun e => negb (JS.or_false (completedFlag e))
                              && JS.gt (getTime (Raw.date e)) (Some now))
               events)).
Proof.
  rewrite lastGames_eq, nextGames_eq, !length_firstn, !sort_length.
  rewrite !filter_map_length. split; reflexivity.
Qed.

(** X9.  When the dates of the completed events parse, the recent games
    are the latest ones: a completed event that is not listed has three
    games listed in its place, none of them earlier than it. *)
Theorem recent_games_are_latest (now : Z) (events : list Raw.Event)
    (e : Raw.Event) (t : Z) :
  (forall e', In e' events -> completedFlag e' = Some true ->
              getTime (Raw.date e') <> JS.NaN) ->
  In e events ->
  completedFlag e = Some true ->
  getTime (Raw.date e) = Some t ->
  ~ In (toGame e) (lastGames (schedule getTime now events)) ->
  List.length (lastGames (schedule getTime now events)) = 3%nat
  /\ Forall (fun g => exists x, timestamp getTime g = Some x /\ t <= x)
       (lastGames (schedule getTime now events)).
Proof.
  intros Hv He Hc Ht Hout. rewrite lastGames_eq in *.
  destruct (firstn_In_or_before
              (fun a b => exists x y, timestamp getTime a = Some x
                                      /\ timestamp getTime b = Some y /\ y <= x)
              3 (JS.sort (mostRecentFirst getTime)
                   (filter completed (map toGame events)))
              (toGame e)) as [H|[Hlen Hall]].
  - apply sort_newestFirst. intros g Hg. apply filter_In in Hg.
    destruct Hg as [Hg Hgc]. apply in_map_iff in Hg.
    destruct Hg as [e' [<- He']]. apply Hv; [exact He'|].
    now apply completed_toGame.
  - apply sort_In, filter_In. split; [now apply in_map|].
    now apply completed_toGame.
  - contradiction.
  - split; [exact Hlen|].
    eapply Forall_impl; [|exact Hall]. intros g [x [y [Hx [Hy Hle]]]].
    exists x. split; [exact Hx|].
    unfold timestamp in Hy. simpl in Hy. congruence.
Qed.

(** X15.  Of an event only the first competition is read, and in it the
    participant found for a side is the first that carries its tag:
    participants after it with the same tag, and all other
    competitions, do not affect the game. *)
Theorem first_tagged_participant_wins :
  (forall side e c,
      findCompetitor side e = Some c <->
      exists before after,
        participants e = before ++ c :: after
        /\ Raw.homeAway c = side
        /\ forall c', In c' before -> Raw.homeAway c' <> side)
  /\ (forall e e',
        Raw.id e = Raw.id e' -> Raw.date e = Raw.date e' ->
        Raw.name e = Raw.name e' -> Raw.shortName e = Raw.shortName e' ->
        completedFlag e = completedFlag e' ->
        participants e = participants e' ->
        toGame e = toGame e').
Proof.
  split.
  - intros side e c. rewrite findCompetitor_participants, find_first.
    split; intros [before [after [H1 [H2 H3]]]]; exists before, after;
      repeat split; auto.
    + now apply String.eqb_eq.
    + intros c' Hc'. apply String.eqb_neq. now apply H3.
    + now apply String.eqb_eq.
    + intros c' Hc'. apply String.eqb_neq. now apply H3.
  - intros e e' Hi Hd Hn Hs Hc Hp. unfold toGame.
    rewrite !findCompetitor_participants, Hi, Hd, Hn, Hs, Hc, Hp.
    reflexivity.
Qed.

(** X16.  An event without participant for either side is printed with
    "TBD" for both abbreviations and the placeholder image for both
    logos, and as a recent game with "0" for both scores. *)
Theorem unknown_sides_on_cards (e : Raw.Event) :
  sideMissing "home" e ->
  sideMissing "away" e ->
  View.upcomingCard (toGame e)
  = {| View.upcomingKey := Raw.id e;
       View.visitorsLogo := "/placeholder.svg";
       View.visitorsAbbreviation := "TBD";
       View.hostsAbbreviation := "TBD";
       View.hostsLogo := "/placeholder.svg" |}
  /\ View.recentCard (toGame e)
     = {| View.key := Raw.id e;
          View.awayLogo := "/placeholder.svg";
          View.awayAbbreviation := "TBD";
          View.awayScore := "0";
          View.homeScore := "0";
          View.homeAbbreviation := "TBD";
          View.homeLogo := "/placeholder.svg" |}.
Proof.
  intros Hh Ha. apply findCompetitor_None in Hh, Ha.
  unfold View.upcomingCard, View.recentCard, toGame; simpl.
  rewrite Hh, Ha. split; reflexivity.
Qed.

End ScheduleFacts.

Lemma recent_games_are_latest_witness :
  List.length (lastGames (schedule Sample.getTime Sample.now Sample.fiveDays))
  = 3%nat
  /\ Forall (fun g => exists x, timestamp Sample.getTime g = Some x
                                /\ 1727370000000 <= x)
       (lastGames (schedule Sample.getTime Sample.now Sample.fiveDays)).
Proof.
  apply (recent_games_are_latest Sample.getTime Sample.now Sample.fiveDays
           Sample.day5 1727370000000).
  - intros e He _. simpl in He.
    destruct He as [<-|[<-|[<-|[<-|[<-|[]]]]]]; vm_compute; discriminate.
  - simpl. tauto.
  - reflexivity.
  - vm_compute. reflexivity.
  - vm_compute. intros [H|[H|[H|[]]]]; discriminate.
Defined.

Lemma first_tagged_participant_wins_witness :
  findCompetitor "home" Demo.crowded
  = Some (Sample.competitor "home" Sample.chiefs (Some "3")).
Proof.
  apply (proj1 first_tagged_participant_wins).
  exists [Sample.competitor "away" Sample.ravens None],
         [Sample.competitor "home" Sample.ravens (Some "9")].
  split; [reflexivity|]. split; [reflexivity|].
  intros c' [<-|[]]. simpl. discriminate.
Defined.

Lemma unknown_sides_on_cards_witness :
  View.upcomingCard (toGame Sample.opener)
  = {| View.upcomingKey := "601";
       View.visitorsLogo := "/placeholder.svg";
       View.visitorsAbbreviation := "TBD";
       View.hostsAbbreviation := "TBD";
       View.hostsLogo := "/placeholder.svg" |}
  /\ View.recentCard (toGame Sample.opener)
     = {| View.key := "601";
          View.awayLogo := "/placeholder.svg";
          View.awayAbbreviation := "TBD";
          View.awayScore := "0";
          View.homeScore := "0";
          View.homeAbbreviation := "TBD";
          View.homeLogo := "/placeholder.svg" |}.
Proof.
  apply (unknown_sides_on_cards Sample.opener).
  - intros c Hc. simpl in Hc. contradiction.
  - intros c Hc. simpl in Hc. contradiction.
Defined.

(* ================================================================== *)
(** ** Clicks, answers and the modal *)

Section ModalFacts.

Variable getTime : string -> JS.Number.
Variable fetch : string -> Except Response.

Lemma resolveSchedule_inr (now : Z) (teamId : string) (s : TeamSchedule) :
  resolveSchedule getTime fetch now teamId = inr s ->
  exists response data,
    fetch (scheduleUrl teamId) = inr response
    /\ ok response = true
    /\ json response = inr data
    /\ s = schedule getTime now (JS.or_empty (Raw.events data)).
Proof.
  unfold resolveSchedule.
  destruct (fetch (scheduleUrl teamId)) as [e|response] eqn:Hf; simpl;
    [discriminate|].
  destruct (ok response) eqn:Hok; simpl; [|discriminate].
  destruct (json response) as [e|data] eqn:Hj; simpl; [discriminate|].
  intros H. injection H as <-. exists response, data. repeat split; auto.
Qed.

(** X10.  A schedule is only ever built from an answer with a success
    status whose body parsed, and it is then the classification of the
    events of that body.  When the request is rejected, or the body of
    a success answer does not parse, the value thrown reaches the
    [catch] as it is. *)
Theorem schedule_needs_a_parsed_success (now : Z) (teamId : string) :
  (forall s,
      resolveSchedule getTime fetch now teamId = inr s ->
      exists response data,
        fetch (scheduleUrl teamId) = inr response
        /\ ok response = true
        /\ json response = inr data
        /\ s = schedule getTime now (JS.or_empty (Raw.events data)))
  /\ (forall err,
        fetch (scheduleUrl teamId) = inl err ->
        resolveSchedule getTime fetch now teamId = inl err)
  /\ (forall response err,
        fetch (scheduleUrl teamId) = inr response ->
        ok response = true ->
        json response = inl err ->
        resolveSchedule getTime fetch now teamId = inl err).
Proof.
  split; [intros s; apply resolveSchedule_inr|]. split.
  - intros err Hf. unfold resolveSchedule. now rewrite Hf.
  - intros response err Hf Hok Hj. unfold resolveSchedule.
    rewrite Hf. simpl. now rewrite Hok, Hj.
Qed.

(** X11.  A click starts afresh: once its request has settled, the
    selection, the schedule, the loading flag and the error are the
    same whatever was selected, listed or reported before. *)
Theorem click_forgets_the_past (now : Z) (t : Team.t) (st1 st2 : State) :
  handleTeamClick getTime fetch now t st1
  = handleTeamClick getTime fetch now t st2.
Proof.
  unfold handleTeamClick, fetchTeamSchedule.
  destruct (resolveSchedule getTime fetch now (Team.id t)); reflexivity.
Qed.

(** X12.  Closing the modal after a settled click puts the four hooks
    back to their initial values; closing hides the modal in any state,
    and closing twice is closing once. *)
Theorem close_resets (now : Z) (t : Team.t) (st : State) :
  closeModal (handleTeamClick getTime fetch now t st) = initialState
  /\ View.modal (closeModal st) = None
  /\ closeModal (closeModal st) = closeModal st.
Proof.
  unfold handleTeamClick, fetchTeamSchedule.
  destruct (resolveSchedule getTime fetch now (Team.id t)); repeat split.
Qed.

Lemma settle_after_begin (now : Z) (teamId : string) (st : State) :
  settleFetch getTime fetch now teamId (beginFetch st)
  = fetchTeamSchedule getTime fetch now teamId st.
Proof. reflexivity. Qed.

(** X13.  From a click until the answer, the modal shows the loading
    line alone: the schedule and the error of an earlier team are
    cleared at once.  The click followed by its answer is the settled
    click. *)
Theorem modal_while_loading (now : Z) (t : Team.t) (st : State) :
  View.modal (run getTime fetch [Click t] st)
  = Some {| View.loadingPanel := true;
            View.errorPanel := None;
            View.schedulePanel := None |}
  /\ run getTime fetch [Click t; Settle (Team.id t) now] st
     = handleTeamClick getTime fetch now t st.
Proof. split; reflexivity. Qed.

Lemma settleFetch_selection (now : Z) (teamId : string) (v : option Team.t)
    (st : State) :
  settleFetch getTime fetch now teamId (setSelectedTeam v st)
  = setSelectedTeam v (settleFetch getTime fetch now teamId st).
Proof.
  unfold settleFetch.
  destruct (resolveSchedule getTime fetch now teamId); reflexivity.
Qed.

(** X14.  An answer is stored without looking at the selection.  After
    a click on team [a], a close, a click on team [b] and the answer
    for [b], a late answer for [a] that carries a schedule replaces
    what is shown: the modal is open for [b] and lists the games of
    [a], beside the error of [b] if its request had failed. *)
Theorem late_answer_overwrites (a b : Team.t) (nowA nowB : Z) (st : State)
    (sa : TeamSchedule) :
  resolveSchedule getTime fetch nowA (Team.id a) = inr sa ->
  let st' :=
    run getTime fetch
      [Click a; Close; Click b; Settle (Team.id b) nowB; Settle (Team.id a) nowA]
      st in
  selectedTeam st' = Some b
  /\ teamSchedule st' = Some sa
  /\ scheduleLoading st' = false
  /\ scheduleError st'
     = match resolveSchedule getTime fetch nowB (Team.id b) with
       | inr _ => None
       | inl err => Some (failureMessage err)
       end
  /\ (forall now teamId v st0,
        settleFetch getTime fetch now teamId (setSelectedTeam v st0)
        = setSelectedTeam v (settleFetch getTime fetch now teamId st0)).
Proof.
  intros Ha st'. unfold st', run; simpl. unfold settleFetch. rewrite Ha.
  destruct (resolveSchedule getTime fetch nowB (Team.id b)); simpl;
    repeat split; try apply settleFetch_selection.
Qed.

(** X17.  Once a click has settled the modal never shows the loading
    line, and never both a schedule and an error: after a success it
    lists at most three recent and at most three next games and no
    error; after a failure it shows the message and no game, or nothing
    at all when the message is empty. *)
Theorem modal_after_click (now : Z) (t : Team.t) (st : State) :
  View.modal (handleTeamClick getTime fetch now t st)
  = Some
      match resolveSchedule getTime fetch now (Team.id t) with
      | inr s =>
          {| View.loadingPanel := false;
             View.errorPanel := None;
             View.schedulePanel :=
               Some (View.recentCards s, View.upcomingCards s) |}
      | inl err =>
          {| View.loadingPanel := false;
             View.errorPanel :=
               if String.eqb (failureMessage err) "" then None
               else Some (failureMessage err);
             View.schedulePanel := None |}
      end
  /\ (forall s, resolveSchedule getTime fetch now (Team.id t) = inr s ->
                (List.length (View.recentCards s) <= 3)%nat
                /\ (List.length (View.upcomingCards s) <= 3)%nat
                /\ map View.key (View.recentCards s) = map id (lastGames s)
                /\ map View.upcomingKey (View.upcomingCards s)
                   = map id (nextGames s)).
Proof.
  split.
  - unfold View.modal, View.modalBody.
    destruct (handleTeamClick_settles getTime fetch now t st)
      as [Hl [Hsel Hc]].
    rewrite Hsel, Hl.
    destruct (resolveSchedule getTime fetch now (Team.id t));
      destruct Hc as [-> ->]; reflexivity.
  - intros s Hs. apply resolveSchedule_inr in Hs.
    destruct Hs as [response [data [_ [_ [_ ->]]]]].
    unfold View.recentCards, View.upcomingCards.
    rewrite !length_map, !map_map. repeat split.
    + rewrite lastGames_eq. apply firstn_length_bound.
    + rewrite nextGames_eq. apply firstn_length_bound.
Qed.

End ModalFacts.

Lemma schedule_needs_a_parsed_success_witness :
  exists response data,
    Sample.network (scheduleUrl "34") = inr response
    /\ ok response = true
    /\ json response = inr data
    /\ schedule Sample.getTime Sample.now []
       = schedule Sample.getTime Sample.now (JS.or_empty (Raw.events data)).
Proof.
  apply (proj1 (schedule_needs_a_parsed_success Sample.getTime Sample.network
                  Sample.now "34")).
  vm_compute. reflexivity.
Defined.

Lemma late_answer_overwrites_witness :
  selectedTeam
    (run Sample.getTime Sample.network
       [Click Sample.kansasCity; Close; Click Sample.houston;
        Settle "34" Sample.now; Settle "12" Sample.now] initialState)
  = Some Sample.houston
  /\ teamSchedule
       (run Sample.getTime Sample.network
          [Click Sample.kansasCity; Close; Click Sample.houston;
           Settle "34" Sample.now; Settle "12" Sample.now] initialState)
     = Some (schedule Sample.getTime Sample.now Sample.week).
Proof.
  destruct (late_answer_overwrites Sample.getTime Sample.network
              Sample.kansasCity Sample.houston Sample.now Sample.now
              initialState (schedule Sample.getTime Sample.now Sample.week))
    as [H1 [H2 _]].
  - vm_compute. reflexivity.
  - split; [exact H1 | exact H2].
Defined.

Lemma modal_after_click_witness :
  (List.length
     (View.recentCards (schedule Sample.getTime Sample.now Sample.week)) <= 3)%nat
  /\ (List.length
        (View.upcomingCards (schedule Sample.getTime Sample.now Sample.week)) <= 3)%nat
  /\ map View.key
       (View.recentCards (schedule Sample.getTime Sample.now Sample.week))
     = map id (lastGames (schedule Sample.getTime Sample.now Sample.week))
  /\ map View.upcomingKey
       (View.upcomingCards (schedule Sample.getTime Sample.now Sample.week))
     = map id (nextGames (schedule Sample.getTime Sample.now Sample.week)).
Proof.
  apply (proj2 (modal_after_click Sample.getTime Sample.network Sample.now
                  Sample.kansasCity initialState)).
  vm_compute. reflexivity.
Defined.

(** X18.  The loading flag is shared by all requests: when the answer
    for team [a] arrives after a close and a click on team [b], whose
    own answer is still awaited, the loading line of [b] goes away and
    the modal of [b] shows what the request for [a] gave. *)
Theorem early_answer_ends_loading (getTime : string -> JS.Number)
    (fetch : string -> Except Response) (a b : Team.t) (nowA : Z) (st : State) :
  let before := run getTime fetch [Click a; Close; Click b] st in
  let after := run getTime fetch [Click a; Close; Click b; Settle (Team.id a) nowA] st in
  scheduleLoading before = true
  /\ selectedTeam after = Some b
  /\ scheduleLoading after = false
  /\ View.modal after
     = View.modal (setSelectedTeam (Some b)
                     (handleTeamClick getTime fetch nowA a st)).
Proof.
  unfold run; simpl. unfold settleFetch, handleTeamClick, fetchTeamSchedule.
  destruct (resolveSchedule getTime fetch nowA (Team.id a)); repeat split.
Qed.

(* ================================================================== *)
(** ** The order of the feed *)

Section FeedOrder.
Context {A : Type}.
Variable comparefn : A -> A -> JS.Number.
Variable key : A -> Z.

Lemma filter_key_NoDup (k : Z) (l : list A) :
  NoDup (map key l) ->
  (List.length (filter (fun x => (key x =? k)%Z) l) <= 1)%nat.
Proof.
  induction l as [|x l IH]; simpl; intros H; [lia|].
  inversion H as [|? ? Hx Hl]; subst.
  destruct (Z.eqb_spec (key x) k) as [Hk|Hk]; [|now apply IH].
  replace (filter (fun z => key z =? k) l) with (@nil A); [simpl; lia|].
  symmetry. clear IH Hl H. revert Hx.
  induction l as [|y l IH]; simpl; intros Hx; [reflexivity|].
  destruct (Z.eqb_spec (key y) k) as [Hy|Hy].
  - exfalso. apply Hx. left. congruence.
  - apply IH. intros Hin. apply Hx. now right.
Qed.

Lemma by_key_perm (a a' : list A) :
  Permutation a a' -> by_key comparefn key a -> by_key comparefn key a'.
Proof.
  intros Hp Hk x y Hx Hy.
  apply Hk; apply Permutation_in with (l := a'); auto using Permutation_sym.
Qed.

(** With pairwise distinct keys the result of the sort does not depend
    on the order of the input. *)
Lemma sort_perm_invariant (a a' : list A) :
  Permutation a a' ->
  by_key comparefn key a ->
  NoDup (map key a) ->
  JS.sort comparefn a = JS.sort comparefn a'.
Proof.
  intros Hp Hk Hn. apply sort_unique with (key := key).
  - now apply by_key_perm with (a := a).
  - now apply sort_sorted.
  - intros k. rewrite sort_stable_key by exact Hk.
    apply perm_short_eq; [now apply filter_perm|].
    apply filter_key_NoDup.
    apply Permutation_NoDup with (l := map key a); [|exact Hn].
    now apply Permutation_map.
Qed.

End FeedOrder.

(** Elements kept by a filter have distinct keys under [fine] when all
    elements have distinct keys under [coarse] and [fine] separates
    whatever [coarse] separates. *)
Lemma kept_keys_distinct {X K K'} (coarse : X -> K) (fine : X -> K')
    (keep : X -> bool) (xs : list X) :
  (forall x y, In x xs -> In y xs -> fine x = fine y -> coarse x = coarse y) ->
  NoDup (map coarse xs) ->
  NoDup (map fine (filter keep xs)).
Proof.
  induction xs as [|x xs IH]; intros Hsep Hd; [constructor|].
  cbn [map filter] in *. apply NoDup_cons_iff in Hd. destruct Hd as [Hx Hd].
  assert (Hrest : NoDup (map fine (filter keep xs))).
  { apply IH; [|exact Hd]. intros u v Hu Hv. apply Hsep; now right. }
  destruct (keep x); [|exact Hrest].
  cbn [map]. apply NoDup_cons_iff. split; [|exact Hrest].
  intros Hin. apply in_map_iff in Hin. destruct Hin as [y [Hy Hin]].
  apply filter_In in Hin. destruct Hin as [Hin _].
  apply Hx. apply in_map_iff. exists y. split; [|exact Hin].
  apply Hsep; [now right | now left | exact Hy].
Qed.

Section FeedOrderOfGames.

Variable getTime : string -> JS.Number.

Lemma games_keys (p : Game -> bool) (sign : Z) (events : list Raw.Event) :
  sign <> 0 ->
  (forall e, In e events -> getTime (Raw.date e) <> JS.NaN) ->
  NoDup (map (fun e => getTime (Raw.date e)) events) ->
  NoDup (map (fun g => sign * stamp getTime g) (filter p (map toGame events))).
Proof.
  intros Hs Hv Hn.
  apply kept_keys_distinct with (coarse := fun g => getTime (date g)).
  - intros x y Hx Hy Hxy. apply in_map_iff in Hx, Hy.
    destruct Hx as [ex [<- Hx]]. destruct Hy as [ey [<- Hy]].
    unfold stamp, timestamp in Hxy. simpl in *.
    pose proof (Hv ex Hx) as Vx. pose proof (Hv ey Hy) as Vy.
    destruct (getTime (Raw.date ex)); [|now elim Vx].
    destruct (getTime (Raw.date ey)); [|now elim Vy].
    f_equal. nia.
  - rewrite map_map. exact Hn.
Qed.

(** X19.  When the dates of the events all parse, to pairwise distinct
    instants, the schedule does not depend on the order in which the
    endpoint lists the events: the order of the feed only decides
    between games of the same instant. *)
Theorem feed_order_is_irrelevant (now : Z) (events events' : list Raw.Event) :
  Permutation events events' ->
  (forall e, In e events -> getTime (Raw.date e) <> JS.NaN) ->
  NoDup (map (fun e => getTime (Raw.date e)) events) ->
  schedule getTime now events = schedule getTime now events'.
Proof.
  intros Hp Hv Hn.
  assert (Hdated : forall p g, In g (filter p (map toGame events)) ->
                               timestamp getTime g <> JS.NaN).
  { intros p g Hg. apply filter_In in Hg. destruct Hg as [Hg _].
    apply in_map_iff in Hg. destruct Hg as [e [<- He]]. now apply Hv. }
  assert (E1 : lastGames (schedule getTime now events)
               = lastGames (schedule getTime now events')).
  { rewrite !lastGames_eq. f_equal.
    apply sort_perm_invariant with (key := fun g => - stamp getTime g).
    - now apply filter_perm, Permutation_map.
    - apply mostRecentFirst_by_key, Hdated.
    - pose proof (games_keys completed (-1) events) as H.
      simpl in H. apply H in Hn; [|lia|exact Hv].
      erewrite map_ext; [exact Hn|]. intros g. simpl.
      destruct (stamp getTime g); reflexivity. }
  assert (E2 : nextGames (schedule getTime now events)
               = nextGames (schedule getTime now events')).
  { rewrite !nextGames_eq. f_equal.
    apply sort_perm_invariant with (key := stamp getTime).
    - now apply filter_perm, Permutation_map.
    - apply earliestFirst_by_key, Hdated.
    - pose proof (games_keys (later getTime now) 1 events) as H.
      apply H in Hn; [|lia|exact Hv].
      erewrite map_ext; [exact Hn|]. intros g. simpl.
      destruct (stamp getTime g); reflexivity. }
  destruct (schedule getTime now events) as [l1 n1].
  destruct (schedule getTime now events') as [l2 n2].
  simpl in E1, E2. now subst.
Qed.

(** X20.  The two revisions of the component build the same game from
    every event, hence the same completed and upcoming games from every
    event list. *)
Theorem revisions_build_the_same_games (now : Z) (events : list Raw.Event) :
  map toGame_page events = map toGame events
  /\ completedGames (forEach getTime now events)
     = filter completed (map toGame_page events)
  /\ upcomingGames (forEach getTime now events)
     = filter (later getTime now) (map toGame_page events).
Proof.
  assert (E : map toGame_page events = map toGame events)
    by (apply map_ext; intros e; apply toGame_page_eq).
  rewrite E, forEach_completed, forEach_upcoming. repeat split.
Qed.

End FeedOrderOfGames.

Lemma feed_order_is_irrelevant_witness :
  schedule Sample.getTime Sample.now Sample.fiveDays
  = schedule Sample.getTime Sample.now (rev Sample.fiveDays).
Proof.
  apply (feed_order_is_irrelevant Sample.getTime Sample.now Sample.fiveDays
           (rev Sample.fiveDays)).
  - apply Permutation_rev.
  - intros e He. simpl in He.
    destruct He as [<-|[<-|[<-|[<-|[<-|[]]]]]]; vm_compute; discriminate.
  - vm_compute.
    repeat (constructor;
            [simpl; intros H;
             repeat (destruct H as [H|H]; [discriminate|]); exact H|]).
    constructor.
Defined.

(* ================================================================== *)
(** ** The engine's sort under a consistent comparison function *)

Section EngineFacts.
Context {A : Type}.
Variable comparefn : A -> A -> JS.Number.
Variable key : A -> Z.

Lemma SortCompare_key (l : list A) (x y : A) :
  by_key comparefn key l -> In x l -> In y l ->
  JS.SortCompare comparefn x y = key x - key y.
Proof. intros Hk Hx Hy. unfold JS.SortCompare. now rewrite (Hk x y Hx Hy). Qed.

Lemma sorted_nth_error (a : list A) :
  StronglySorted (fun u v => key u <= key v) a ->
  forall i j x y, (i <= j)%nat ->
    nth_error a i = Some x -> nth_error a j = Some y -> key x <= key y.
Proof.
  induction 1 as [|z a Hs IH Hall]; intros i j x y Hij Hi Hj.
  - now destruct i.
  - rewrite Forall_forall in Hall.
    destruct i as [|i], j as [|j]; simpl in Hi, Hj.
    + injection Hi as <-. injection Hj as <-. lia.
    + injection Hi as <-. apply Hall. eapply nth_error_In, Hj.
    + lia.
    + apply (IH i j); auto. lia.
Qed.

Lemma StronglySorted_join (R : A -> A -> Prop) (l1 l2 : list A) :
  StronglySorted R l1 -> StronglySorted R l2 ->
  (forall x y, In x l1 -> In y l2 -> R x y) ->
  StronglySorted R (l1 ++ l2).
Proof.
  induction 1 as [|x l1 Hs IH Hall]; intros H2 Hc; simpl; [exact H2|].
  constructor.
  - apply IH; [exact H2|]. intros u v Hu Hv. apply Hc; [now right|exact Hv].
  - apply Forall_app. split; [exact Hall|].
    apply Forall_forall. intros y Hy. apply Hc; [now left|exact Hy].
Qed.

Lemma StronglySorted_skipn (R : A -> A -> Prop) (n : nat) (l : list A) :
  StronglySorted R l -> StronglySorted R (skipn n l).
Proof.
  revert l; induction n as [|n IH]; intros l H; [exact H|].
  destruct l as [|x l]; [constructor|]. simpl. apply IH.
  now apply StronglySorted_inv in H.
Qed.

Lemma skipn_In (n : nat) (l : list A) (x : A) : In x (skipn n l) -> In x l.
Proof.
  intros H. rewrite <- (firstn_skipn n l). apply in_or_app. now right.
Qed.

(** The search ends at an index that has the elements not above the
    pivot before it and the elements above the pivot from it on. *)
Lemma insertionPoint_spec (pivot : A) (a : list A) :
  by_key comparefn key (pivot :: a) ->
  StronglySorted (fun u v => key u <= key v) a ->
  forall fuel left right,
    (right - left <= fuel)%nat -> (left <= right)%nat ->
    (right <= List.length a)%nat ->
    (forall i x, (i < left)%nat -> nth_error a i = Some x ->
                 key x <= key pivot) ->
    (forall i x, (right <= i)%nat -> nth_error a i = Some x ->
                 key pivot < key x) ->
    (forall i x, (i < V8.insertionPoint comparefn fuel pivot a left right)%nat ->
                 nth_error a i = Some x -> key x <= key pivot)
    /\ (forall i x, (V8.insertionPoint comparefn fuel pivot a left right <= i)%nat ->
                    nth_error a i = Some x -> key pivot < key x).
Proof.
  intros Hk Hs. induction fuel as [|fuel IH]; intros left right Hf Hlr Hr Hlo Hhi.
  - simpl. replace right with left in Hhi by lia. now split.
  - simpl. destruct (Nat.ltb_spec left right) as [Hlt|Hge].
    2:{ replace right with left in Hhi by lia. now split. }
    assert (Hd : (Nat.div2 (right - left) < right - left)%nat)
      by (apply Nat.lt_div2; lia).
    generalize dependent (Nat.div2 (right - left)). intros half Hd.
    assert (Hmid : (left + half < right)%nat) by lia.
    destruct (nth_error a (left + half)) as [element|] eqn:He.
    2:{ apply nth_error_None in He. lia. }
    assert (Hin : In element a) by (eapply nth_error_In, He).
    rewrite (SortCompare_key (pivot :: a) pivot element Hk)
      by (simpl; auto).
    destruct (Z.ltb_spec (key pivot - key element) 0) as [Hlt0|Hge0].
    + apply IH; [lia|lia|lia|exact Hlo|].
      intros i x Hi Hx.
      pose proof (sorted_nth_error a Hs _ _ _ _ Hi He Hx). lia.
    + apply IH; [lia|lia|lia| |exact Hhi].
      intros i x Hi Hx.
      assert (Hle : (i <= left + half)%nat) by lia.
      pose proof (sorted_nth_error a Hs _ _ _ _ Hle Hx He). lia.
Qed.

Lemma place_spec (a : list A) (pivot : A) :
  by_key comparefn key (pivot :: a) ->
  StronglySorted (fun u v => key u <= key v) a ->
  StronglySorted (fun u v => key u <= key v) (V8.place comparefn a pivot)
  /\ forall k, filter (fun x => key x =? k) (V8.place comparefn a pivot)
               = filter (fun x => key x =? k) (a ++ [pivot]).
Proof.
  intros Hk Hs. unfold V8.place.
  set (p := V8.insertionPoint comparefn (List.length a) pivot a 0 (List.length a)).
  destruct (insertionPoint_spec pivot a Hk Hs (List.length a) 0 (List.length a))
    as [Hlo Hhi]; try lia.
  { intros i x Hi Hx. apply nth_error_None in Hi. congruence. }
  fold p in Hlo, Hhi.
  assert (Hbefore : forall x, In x (firstn p a) -> key x <= key pivot).
  { intros x Hx. apply In_nth_error in Hx. destruct Hx as [i Hi].
    rewrite nth_error_firstn in Hi.
    destruct (Nat.ltb_spec i p); [|discriminate]. now apply (Hlo i). }
  assert (Hafter : forall x, In x (skipn p a) -> key pivot < key x).
  { intros x Hx. apply In_nth_error in Hx. destruct Hx as [i Hi].
    rewrite nth_error_skipn in Hi. apply (Hhi (p + i)%nat); [lia|exact Hi]. }
  split.
  - apply StronglySorted_join.
    + now apply StronglySorted_firstn.
    + constructor; [now apply StronglySorted_skipn|].
      apply Forall_forall. intros y Hy. apply Hafter in Hy. lia.
    + intros x y Hx [<-|Hy]; [now apply Hbefore|].
      apply Hbefore in Hx. apply Hafter in Hy. lia.
  - intros k. rewrite <- (firstn_skipn p a) at 3.
    rewrite !filter_app. simpl.
    destruct (Z.eqb_spec (key pivot) k) as [E|E].
    + replace (filter (fun x => key x =? k) (skipn p a)) with (@nil A);
        [now rewrite app_nil_r|].
      symmetry. generalize Hafter. generalize (skipn p a) as l.
      induction l as [|y l IHl]; intros H; simpl; [reflexivity|].
      pose proof (H y (or_introl eq_refl)).
      destruct (Z.eqb_spec (key y) k); [lia|].
      apply IHl. intros x Hx. apply H. now right.
    + now rewrite app_nil_r.
Qed.

Lemma place_In (a : list A) (pivot x : A) :
  In x (V8.place comparefn a pivot) -> pivot = x \/ In x a.
Proof.
  unfold V8.place. intros H. apply in_app_or in H.
  destruct H as [H|[H|H]]; [right|now left|right].
  - eapply firstn_In, H.
  - eapply skipn_In, H.
Qed.

Lemma BinaryInsertionSort_spec (rest run : list A) :
  by_key comparefn key (run ++ rest) ->
  StronglySorted (fun u v => key u <= key v) run ->
  StronglySorted (fun u v => key u <= key v)
    (V8.BinaryInsertionSort comparefn run rest)
  /\ forall k, filter (fun x => key x =? k)
                 (V8.BinaryInsertionSort comparefn run rest)
               = filter (fun x => key x =? k) (run ++ rest).
Proof.
  revert run; induction rest as [|pivot rest IH]; intros run Hk Hs.
  - simpl. rewrite app_nil_r. now split.
  - simpl.
    assert (Hk1 : by_key comparefn key (pivot :: run)).
    { intros x y Hx Hy. apply Hk; apply in_or_app; simpl in *; tauto. }
    destruct (place_spec run pivot Hk1 Hs) as [Hs' Hf'].
    destruct (IH (V8.place comparefn run pivot)) as [Hs2 Hf2].
    + intros x y Hx Hy. apply Hk.
      * apply in_app_or in Hx. destruct Hx as [Hx|Hx].
        -- apply place_In in Hx. apply in_or_app. simpl. tauto.
        -- apply in_or_app. simpl. tauto.
      * apply in_app_or in Hy. destruct Hy as [Hy|Hy].
        -- apply place_In in Hy. apply in_or_app. simpl. tauto.
        -- apply in_or_app. simpl. tauto.
    + exact Hs'.
    + split; [exact Hs2|]. intros k.
      rewrite Hf2, filter_app, Hf', <- filter_app, <- app_assoc. reflexivity.
Qed.

Lemma extendRun_le (d : bool) (prev : A) (rest : list A) :
  (V8.extendRun comparefn d prev rest <= List.length rest)%nat.
Proof.
  revert prev; induction rest as [|cur rest IH]; intros prev; simpl; [lia|].
  destruct d.
  - destruct (JS.SortCompare comparefn cur prev >=? 0);
      [lia | specialize (IH cur); lia].
  - destruct (JS.SortCompare comparefn cur prev <? 0);
      [lia | specialize (IH cur); lia].
Qed.

Lemma run_ascending (prev : A) (rest : list A) :
  by_key comparefn key (prev :: rest) ->
  StronglySorted (fun u v => key u <= key v)
    (prev :: firstn (V8.extendRun comparefn false prev rest) rest).
Proof.
  revert prev; induction rest as [|cur rest IH]; intros prev Hk; simpl.
  - repeat constructor.
  - rewrite (SortCompare_key (prev :: cur :: rest) cur prev Hk)
      by (simpl; auto).
    destruct (Z.ltb_spec (key cur - key prev) 0) as [Hlt|Hge]; simpl.
    + repeat constructor.
    + assert (Hs : StronglySorted (fun u v => key u <= key v)
                     (cur :: firstn (V8.extendRun comparefn false cur rest) rest)).
      { apply IH. intros x y Hx Hy. apply Hk; now right. }
      constructor; [exact Hs|].
      apply StronglySorted_inv in Hs. destruct Hs as [_ Hall].
      constructor; [lia|].
      eapply Forall_impl; [|exact Hall]. simpl. intros; lia.
Qed.

Lemma run_descending (prev : A) (rest : list A) :
  by_key comparefn key (prev :: rest) ->
  StronglySorted (fun u v => key v < key u)
    (prev :: firstn (V8.extendRun comparefn true prev rest) rest).
Proof.
  revert prev; induction rest as [|cur rest IH]; intros prev Hk; simpl.
  - repeat constructor.
  - rewrite (SortCompare_key (prev :: cur :: rest) cur prev Hk)
      by (simpl; auto).
    destruct (Z.geb_spec (key cur - key prev) 0) as [Hge|Hlt]; simpl.
    + repeat constructor.
    + assert (Hs : StronglySorted (fun u v => key v < key u)
                     (cur :: firstn (V8.extendRun comparefn true cur rest) rest)).
      { apply IH. intros x y Hx Hy. apply Hk; now right. }
      constructor; [exact Hs|].
      apply StronglySorted_inv in Hs. destruct Hs as [_ Hall].
      constructor; [lia|].
      eapply Forall_impl; [|exact Hall]. simpl. intros; lia.
Qed.

(** The run the array starts with, once made ascending, is in key order
    and holds the elements of every key in the order of the array. *)
Lemma CountAndMakeRun_spec (a made : list A) (runLength : nat) :
  by_key comparefn key a ->
  V8.CountAndMakeRun comparefn a = (made, runLength) ->
  StronglySorted (fun u v => key u <= key v) (firstn runLength made)
  /\ (forall k, filter (fun x => key x =? k) (firstn runLength made)
                = filter (fun x => key x =? k) (firstn runLength a))
  /\ skipn runLength made = skipn runLength a
  /\ Permutation made a.
Proof.
  intros Hk. unfold V8.CountAndMakeRun.
  destruct a as [|eh [|el rest]].
  - intros H. injection H as <- <-. simpl. repeat split; auto. constructor.
  - intros H. injection H as <- <-. simpl. repeat split; auto.
    repeat constructor.
  - rewrite (SortCompare_key _ el eh Hk) by (simpl; auto).
    pose proof (extendRun_le (key el - key eh <? 0) el rest) as Hle.
    destruct (Z.ltb_spec (key el - key eh) 0) as [Hlt|Hge]; intros H;
      injection H as <- <-.
    + assert (Hd : StronglySorted (fun u v => key v < key u)
                     (eh :: el :: firstn (V8.extendRun comparefn true el rest) rest)).
      { pose proof (run_descending eh (el :: rest) Hk) as Hd. simpl in Hd.
        rewrite (SortCompare_key _ el eh Hk) in Hd by (simpl; auto).
        destruct (Z.geb_spec (key el - key eh) 0); [lia|exact Hd]. }
      set (m := V8.extendRun comparefn true el rest) in *.
      set (run := eh :: el :: firstn m rest) in *.
      assert (Hlen : List.length (rev run) = S (S m)).
      { rewrite length_rev. unfold run. simpl. rewrite length_firstn. lia. }
      assert (Hf : firstn (S (S m)) (eh :: el :: rest) = run) by reflexivity.
      assert (Hsk : skipn (S (S m)) (eh :: el :: rest) = skipn m rest)
        by reflexivity.
      rewrite Hf, Hsk.
      assert (E1 : firstn (S (S m)) (rev run ++ skipn m rest) = rev run).
      { rewrite firstn_app, Hlen, Nat.sub_diag, firstn_O, app_nil_r.
        rewrite <- Hlen. apply firstn_all. }
      assert (E2 : skipn (S (S m)) (rev run ++ skipn m rest) = skipn m rest).
      { rewrite skipn_app, Hlen, Nat.sub_diag. simpl skipn at 2.
        rewrite <- Hlen, skipn_all. reflexivity. }
      change ((rev (firstn m rest) ++ [el]) ++ [eh]) with (rev run).
      rewrite E1, E2.
      assert (Hup : StronglySorted (fun u v => key u < key v) (rev run))
        by (apply StronglySorted_rev; exact Hd).
      split; [|split; [|split]].
      * eapply StronglySorted_weaken; [|exact Hup]. simpl. intros; lia.
      * intros k. symmetry. apply perm_short_eq.
        -- apply filter_perm, Permutation_rev.
        -- apply filter_key_strict. exact Hup.
      * reflexivity.
      * apply perm_trans with (run ++ skipn m rest).
        -- apply Permutation_app_tail, Permutation_sym, Permutation_rev.
        -- unfold run. simpl. rewrite firstn_skipn. apply Permutation_refl.
    + assert (Hu : StronglySorted (fun u v => key u <= key v)
                     (eh :: el :: firstn (V8.extendRun comparefn false el rest) rest)).
      { pose proof (run_ascending eh (el :: rest) Hk) as Hu. simpl in Hu.
        rewrite (SortCompare_key _ el eh Hk) in Hu by (simpl; auto).
        destruct (Z.ltb_spec (key el - key eh) 0); [lia|exact Hu]. }
      repeat split; auto.
Qed.

End EngineFacts.

Section EngineAgrees.
Context {A : Type}.
Variable comparefn : A -> A -> JS.Number.
Variable key : A -> Z.

(** On an array whose comparison function is the difference of a key the
    engine's sort returns the array in key order, elements of equal key
    in the order of the array. *)
Lemma V8_sort_spec (a : list A) :
  by_key comparefn key a ->
  StronglySorted (fun u v => key u <= key v) (V8.sort comparefn a)
  /\ forall k, filter (fun x => key x =? k) (V8.sort comparefn a)
               = filter (fun x => key x =? k) a.
Proof.
  intros Hk. unfold V8.sort.
  destruct a as [|x [|y rest]].
  - split; [constructor | reflexivity].
  - split; [repeat constructor | reflexivity].
  - destruct (V8.CountAndMakeRun comparefn (x :: y :: rest))
      as [made runLength] eqn:E.
    destruct (CountAndMakeRun_spec comparefn key _ _ _ Hk E)
      as [Hs [Hf [Hsk Hp]]].
    destruct (BinaryInsertionSort_spec comparefn key
                (skipn runLength made) (firstn runLength made)) as [Hs' Hf'].
    + rewrite firstn_skipn.
      apply by_key_perm with (a := x :: y :: rest);
        [now apply Permutation_sym | exact Hk].
    + exact Hs.
    + split; [exact Hs'|]. intros k.
      rewrite Hf', filter_app, Hf, Hsk, <- filter_app, firstn_skipn.
      reflexivity.
Qed.

(** The engine and the model sort alike as long as the comparison
    function is consistent. *)
Lemma V8_sort_agrees (a : list A) :
  by_key comparefn key a -> V8.sort comparefn a = JS.sort comparefn a.
Proof.
  intros Hk. destruct (V8_sort_spec a Hk) as [Hs Hf].
  now apply sort_unique with (key := key).
Qed.

End EngineAgrees.

Lemma V8_conforming : conforming (@V8.sort Game).
Proof. intros comparefn key a Hk. now apply V8_sort_spec. Qed.

Lemma JS_conforming : conforming (@JS.sort Game).
Proof.
  intros comparefn key a Hk. split.
  - now apply sort_sorted.
  - intros k. now apply sort_stable_key.
Qed.

Lemma ordering_is_reproducible_and_stable_witness :
  lastGames (scheduleWith (@V8.sort Game) Sample.getTime Sample.now Sample.sameHour)
  = lastGames (scheduleWith (@JS.sort Game) Sample.getTime Sample.now Sample.sameHour)
  /\ forall tau,
       exists rest,
         filter (fun g => sameNumber (timestamp Sample.getTime g) tau)
           (filter completed (map toGame Sample.sameHour))
         = filter (fun g => sameNumber (timestamp Sample.getTime g) tau)
             (lastGames
                (scheduleWith (@V8.sort Game) Sample.getTime Sample.now
                   Sample.sameHour)) ++ rest.
Proof.
  apply (ordering_is_reproducible_and_stable Sample.getTime
           (@V8.sort Game) (@JS.sort Game) Sample.now Sample.sameHour
           V8_conforming JS_conforming).
  intros e He _. simpl in He.
  destruct He as [<-|[<-|[<-|[]]]]; vm_compute; discriminate.
Defined.

(** On the engine two games of one instant come out, behind the later
    game, in the order of the input. *)
Example same_hour_on_the_engine :
  map id (lastGames (scheduleWith (@V8.sort Game) Sample.getTime Sample.now
                       Sample.sameHour))
  = ["703"; "701"; "702"].
Proof. vm_compute. reflexivity. Qed.

(** C9 (as stated) fails on the engine.  Of seven completed games, two
    undated and three on 2 September, the engine's sort puts game 716
    before game 715, although the feed lists 715 first and both are of
    the same instant: the search for the place of 716 meets dated games
    only, the search for the place of 715 had met the undated ones.
    After the cut the recent games show 711 and 716 of that instant and
    leave 715 out, so the games listed are not the first of the instant
    in the order of the input. *)
Lemma engine_sort_is_unstable_beside_undated_games :
  map id (map toGame Week1.games)
  = ["710"; "711"; "712"; "713"; "714"; "715"; "716"]
  /\ map (timestamp Sample.getTime)
       (filter (fun g => String.eqb (id g) "715" || String.eqb (id g) "716")
          (map toGame Week1.games))
     = [Some Week1.secondOfSeptember; Some Week1.secondOfSeptember]
  /\ map id (V8.sort (mostRecentFirst Sample.getTime)
               (completedGames (forEach Sample.getTime Sample.now Week1.games)))
     = ["711"; "716"; "710"; "712"; "713"; "714"; "715"]
  /\ map id (lastGames (scheduleWith (@V8.sort Game) Sample.getTime Sample.now
                          Week1.games))
     = ["711"; "716"; "710"]
  /\ ~ (exists rest,
          filter (fun g => sameNumber (timestamp Sample.getTime g)
                             (Some Week1.secondOfSeptember))
            (filter completed (map toGame Week1.games))
          = filter (fun g => sameNumber (timestamp Sample.getTime g)
                               (Some Week1.secondOfSeptember))
              (lastGames (scheduleWith (@V8.sort Game) Sample.getTime Sample.now
                            Week1.games)) ++ rest).
Proof.
  split; [vm_compute; reflexivity|].
  split; [vm_compute; reflexivity|].
  split; [vm_compute; reflexivity|].
  split; [vm_compute; reflexivity|].
  intros [rest H]. vm_compute in H. discriminate H.
Qed.
